(** * Cody inline completions: text post-processing

    A shallow embedding of [vscode/src/completions/text-processing.ts]
    together with the parts of the completion pipeline that the
    specification describes, and the properties proved about them.

    JavaScript strings are sequences of UTF-16 code units; they are
    modelled as [list N].  Indices are [Z], because [indexOf] and
    [lastIndexOf] answer [-1] and [slice] accepts negative positions. *)

From Stdlib Require Import Ascii String.
From Stdlib Require Import List ZArith NArith Lia Bool Sorted.
Import ListNotations.
Open Scope Z_scope.

(** ** The JavaScript string and array primitives used by the source *)

Module JS.

Definition jsstring := list N.

(** An ASCII literal as a JavaScript string, with the escapes of the
    TypeScript source: backslash-n is a line feed, backslash-t a tab,
    and a doubled backslash is one backslash. *)
Fixpoint unescape (l : list ascii) : jsstring :=
  match l with
  | [] => []
  | c :: r =>
      match r with
      | [] => [N_of_ascii c]
      | d :: r' =>
          if (N_of_ascii c =? 92)%N then
            if (N_of_ascii d =? 110)%N then 10%N :: unescape r'
            else if (N_of_ascii d =? 116)%N then 9%N :: unescape r'
            else if (N_of_ascii d =? 92)%N then 92%N :: unescape r'
            else N_of_ascii c :: unescape r
          else N_of_ascii c :: unescape r
      end
  end.

Definition lit (s : string) : jsstring := unescape (list_ascii_of_string s).

Arguments lit s%_string.

(** [s.length], also [array.length]. *)
Definition len {A : Type} (l : list A) : Z := Z.of_nat (length l).

(** ECMAScript WhiteSpace and LineTerminator code points: what
    [trim], [trimEnd] and the regular expression class [\s] recognise. *)
Definition isWhiteSpace (c : N) : bool :=
  ((9 <=? c) && (c <=? 13) || (c =? 32) || (c =? 160) || (c =? 5760)
   || (8192 <=? c) && (c <=? 8202) || (c =? 8232) || (c =? 8233)
   || (c =? 8239) || (c =? 8287) || (c =? 12288) || (c =? 65279))%N.

Fixpoint trimStart (s : jsstring) : jsstring :=
  match s with
  | [] => []
  | c :: s' => if isWhiteSpace c then trimStart s' else s
  end.

Definition trimEnd (s : jsstring) : jsstring := rev (trimStart (rev s)).

Definition trim (s : jsstring) : jsstring := trimEnd (trimStart s).

(** [s.startsWith(t)] *)
Fixpoint startsWith (s t : jsstring) : bool :=
  match t, s with
  | [], _ => true
  | _ :: _, [] => false
  | b :: t', a :: s' => (a =? b)%N && startsWith s' t'
  end.

(** [s.endsWith(t)] *)
Definition endsWith (s t : jsstring) : bool := startsWith (rev s) (rev t).

(** The scan of [s.indexOf(t)]: [i] is the position of [s] in the
    whole string. *)
Fixpoint indexOfFrom (s t : jsstring) (i : Z) : Z :=
  if startsWith s t then i
  else match s with
       | [] => -1
       | _ :: s' => indexOfFrom s' t (i + 1)
       end.

Definition indexOf (s t : jsstring) : Z := indexOfFrom s t 0.

(** [s.includes(t)] *)
Definition includes (s t : jsstring) : bool := negb (indexOf s t =? -1).

(** The scan of [s.lastIndexOf(t)]: [best] is the last match seen. *)
Fixpoint lastIndexOfFrom (s t : jsstring) (i best : Z) : Z :=
  let best' := if startsWith s t then i else best in
  match s with
  | [] => best'
  | _ :: s' => lastIndexOfFrom s' t (i + 1) best'
  end.

Definition lastIndexOf (s t : jsstring) : Z := lastIndexOfFrom s t 0 (-1).

(** A relative position of [slice] brought into [0 .. n]. *)
Definition clampIndex (n i : Z) : Z :=
  if i <? 0 then Z.max (n + i) 0 else Z.min i n.

(** [x.slice(start, stop)] for strings and arrays; [None] is an
    omitted second argument. *)
Definition slice {A : Type} (l : list A) (start : Z) (stop : option Z) : list A :=
  let n := len l in
  let from := clampIndex n start in
  let to := match stop with None => n | Some e => clampIndex n e end in
  firstn (Z.to_nat (Z.max (to - from) 0)) (skipn (Z.to_nat from) l).

(** [s.split(sep)] for a non-empty separator: [skip] code units of a
    separator just matched are still to be passed over, [cur] is the
    piece being read, in reverse. *)
Fixpoint splitGo (sep s : jsstring) (skip : nat) (cur : jsstring) : list jsstring :=
  match s with
  | [] => [rev cur]
  | c :: s' =>
      match skip with
      | S k => splitGo sep s' k cur
      | O => if startsWith s sep
             then rev cur :: splitGo sep s' (length sep - 1) []
             else splitGo sep s' 0 (c :: cur)
      end
  end.

(** [s.split(sep)]; an empty separator cuts between code units. *)
Definition split (s sep : jsstring) : list jsstring :=
  match sep with
  | [] => map (fun c => [c]) s
  | _ :: _ => splitGo sep s 0 []
  end.

(** [lines.join(sep)] *)
Fixpoint join (sep : jsstring) (ls : list jsstring) : jsstring :=
  match ls with
  | [] => []
  | [l] => l
  | l :: rest => l ++ sep ++ join sep rest
  end.

(** [s.search(/\S|$/)]: the first code unit that is not white space,
    or the length of the string. *)
Fixpoint searchNonWhitespace (s : jsstring) (i : Z) : Z :=
  match s with
  | [] => i
  | c :: s' => if isWhiteSpace c then searchNonWhitespace s' (i + 1) else i
  end.

(** Array destructuring [const [x] = a]: [None] stands for [undefined]. *)
Definition first {A : Type} (l : list A) : option A :=
  match l with [] => None | x :: _ => Some x end.

End JS.

(** ** [text-processing.ts] *)

Module TextProcessing.
Import JS.

Definition OPENING_CODE_TAG : jsstring := lit "<CODE5711>".
Definition CLOSING_CODE_TAG : jsstring := lit "</CODE5711>".

(** [const [result] = completion.split(CLOSING_CODE_TAG)] always finds a
    first piece (lemma [split_first_defined] below); the [None] branch
    stands for the [undefined] that cannot arise. *)
Definition extractFromCodeBlock (completion : jsstring) : jsstring :=
  if includes completion OPENING_CODE_TAG then []
  else match first (split completion CLOSING_CODE_TAG) with
       | Some result => trimEnd result
       | None => []
       end.

(** [indentation]: the editor's tab size, read by [getEditorTabSize]
    from the active editor, is a parameter.  The match of
    [/^[\t ]*/] is the leading run of tabs and spaces, summed by the
    [reduce]. *)
Fixpoint indentationFrom (tabSize : Z) (line : jsstring) (p : Z) : Z :=
  match line with
  | [] => p
  | c :: rest =>
      if (c =? 9)%N then indentationFrom tabSize rest (p + tabSize)
      else if (c =? 32)%N then indentationFrom tabSize rest (p + 1)
      else p
  end.

Definition indentation (tabSize : Z) (line : jsstring) : Z :=
  indentationFrom tabSize line 0.

(** *** [fixBadCompletionStart]

    [BAD_COMPLETION_START] is
    [/^(\p{Emoji_Presentation}|\u{200B}|\+ |- |\. )+(\s)+/u].  The Unicode
    property table [Emoji_Presentation] belongs to the JavaScript
    engine; it is a parameter, a predicate on code points. *)
Section BadCompletionStart.

Variable Emoji_Presentation : N -> bool.

Definition isHighSurrogate (c : N) : bool := ((55296 <=? c) && (c <=? 56319))%N.
Definition isLowSurrogate (c : N) : bool := ((56320 <=? c) && (c <=? 57343))%N.

(** The code point of a surrogate pair (the [u] flag reads the input
    by code points). *)
Definition codePoint (hi lo : N) : N :=
  (65536 + (hi - 55296) * 1024 + (lo - 56320))%N.

(** [(\s)+] at the end of the pattern: greedy, at least one. *)
Definition matchSpaces (s : jsstring) : option jsstring :=
  match s with
  | [] => None
  | c :: s' => if isWhiteSpace c then Some (trimStart s') else None
  end.

Definition orElse {A : Type} (a b : option A) : option A :=
  match a with Some _ => a | None => b end.

(** The backtracking match of the whole pattern at the start of [s]:
    one more iteration of the group, the alternatives tried in the
    order they are written; after an iteration, first a further
    iteration (the [+] is greedy), then the white space.  The answer
    is what follows the match. *)
Fixpoint matchBadStart (s : jsstring) : option jsstring :=
  match s with
  | [] => None
  | c1 :: s1 =>
      match s1 with
      | [] =>
          orElse (if Emoji_Presentation c1
                  then orElse (matchBadStart s1) (matchSpaces s1) else None)
                 (if (c1 =? 8203)%N
                  then orElse (matchBadStart s1) (matchSpaces s1) else None)
      | c2 :: s2 =>
          orElse (if isHighSurrogate c1 && isLowSurrogate c2
                  then if Emoji_Presentation (codePoint c1 c2)
                       then orElse (matchBadStart s2) (matchSpaces s2) else None
                  else if Emoji_Presentation c1
                       then orElse (matchBadStart s1) (matchSpaces s1) else None)
         (orElse (if (c1 =? 8203)%N
                  then orElse (matchBadStart s1) (matchSpaces s1) else None)
         (orElse (if (c1 =? 43)%N && (c2 =? 32)%N
                  then orElse (matchBadStart s2) (matchSpaces s2) else None)
         (orElse (if (c1 =? 45)%N && (c2 =? 32)%N
                  then orElse (matchBadStart s2) (matchSpaces s2) else None)
                 (if (c1 =? 46)%N && (c2 =? 32)%N
                  then orElse (matchBadStart s2) (matchSpaces s2) else None))))
      end
  end.

(** [BAD_COMPLETION_START.test(completion)] *)
Definition testBadStart (completion : jsstring) : bool :=
  match matchBadStart completion with Some _ => true | None => false end.

(** [completion.replace(BAD_COMPLETION_START, '')] *)
Definition replaceBadStart (completion : jsstring) : jsstring :=
  match matchBadStart completion with Some rest => rest | None => completion end.

Definition fixBadCompletionStart (completion : jsstring) : jsstring :=
  if testBadStart completion then replaceBadStart completion else completion.

End BadCompletionStart.

(** *** [TrimmedString], [PrefixComponents], [getHeadAndTail] *)

Record TrimmedString := {
  trimmed : jsstring;
  leadSpace : jsstring;
  rearSpace : jsstring
}.

Record PrefixComponents := {
  head : TrimmedString;
  tail : TrimmedString;
  overlap : option jsstring
}.

Definition trimSpace (s : jsstring) : TrimmedString :=
  let trimmed := trim s in
  let headEnd := indexOf s trimmed in
  {| trimmed := trimmed;
     leadSpace := slice s 0 (Some headEnd);
     rearSpace := slice s (headEnd + len trimmed) None |}.

(** The line feed, ['\n'] in the source. *)
Definition NL : jsstring := [10%N].

Definition tailThreshold : Z := 2.

(** The [for] loop of [getHeadAndTail], from the last line down:
    [revLines] are the lines [i], [i-1], ..., [0]. *)
Fixpoint tailStartLoop (revLines : list jsstring) (i nonEmptyCount : Z) : Z :=
  match revLines with
  | [] => -1
  | line :: rest =>
      let nonEmptyCount' :=
        if len (trim line) >? 0 then nonEmptyCount + 1 else nonEmptyCount in
      if nonEmptyCount' >=? tailThreshold then i
      else tailStartLoop rest (i - 1) nonEmptyCount'
  end.

Definition findTailStart (lines : list jsstring) : Z :=
  tailStartLoop (rev lines) (len lines - 1) 0.

Definition getHeadAndTail (s : jsstring) : PrefixComponents :=
  let lines := split s NL in
  let tailStart := findTailStart lines in
  if tailStart =? -1
  then {| head := trimSpace s; tail := trimSpace s; overlap := Some s |}
  else {| head := trimSpace (join NL (slice lines 0 (Some tailStart)));
          tail := trimSpace (join NL (slice lines tailStart None));
          overlap := None |}.

(** *** [trimUntilSuffix] *)

Definition NUMBER_OF_CHARS_TO_MATCH_AND_CUT_SUFFIX : Z := 15.

Definition getFirstNCharsPreservingLeadingSpaces (value : jsstring) (charsNumber : Z) : jsstring :=
  let startIndex := searchNonWhitespace value 0 in
  slice value 0 (Some (startIndex + charsNumber)).

(** The first loop of [trimUntilSuffix]: the first line with something
    other than white space, or [''] when there is none. *)
Fixpoint firstNonEmptyLine (lines : list jsstring) : jsstring :=
  match lines with
  | [] => []
  | line :: rest => if len (trim line) >? 0 then line else firstNonEmptyLine rest
  end.

(** The second loop: [lines] are [insertionLines] from index [i] on;
    the answer is [insertionEnd], [total] when no line matches. *)
Fixpoint findInsertionEnd (prefix suffixPart : jsstring) (lines : list jsstring)
    (i total : Z) : Z :=
  match lines with
  | [] => total
  | l :: rest =>
      let line :=
        if i =? 0
        then slice prefix (lastIndexOf prefix NL + 1) None ++ l
        else l in
      let linePart :=
        getFirstNCharsPreservingLeadingSpaces line NUMBER_OF_CHARS_TO_MATCH_AND_CUT_SUFFIX in
      if negb (len linePart =? 0) && startsWith suffixPart linePart then i
      else findInsertionEnd prefix suffixPart rest (i + 1) total
  end.

Definition trimUntilSuffix (insertion prefix suffix : jsstring) : jsstring :=
  let insertion := trimEnd insertion in
  let firstNonEmptySuffixLine := firstNonEmptyLine (split suffix NL) in
  if len firstNonEmptySuffixLine =? 0 then insertion
  else
    let insertionLines := split insertion NL in
    let firstNonEmptySuffixLinePart :=
      getFirstNCharsPreservingLeadingSpaces firstNonEmptySuffixLine
        NUMBER_OF_CHARS_TO_MATCH_AND_CUT_SUFFIX in
    let insertionEnd :=
      findInsertionEnd prefix firstNonEmptySuffixLinePart insertionLines 0
        (len insertionLines) in
    join NL (slice insertionLines 0 (Some insertionEnd)).

(** *** [collapseDuplicativeWhitespace]: [/^[\t ]+/] removed from the
    completion when the prefix ends in a space or a tab. *)
Fixpoint dropTabsAndSpaces (s : jsstring) : jsstring :=
  match s with
  | [] => []
  | c :: s' => if (c =? 9)%N || (c =? 32)%N then dropTabsAndSpaces s' else s
  end.

Definition collapseDuplicativeWhitespace (prefix completion : jsstring) : jsstring :=
  if endsWith prefix [32%N] || endsWith prefix [9%N]
  then dropTabsAndSpaces completion
  else completion.

End TextProcessing.

(** ** The completion pipeline

    The truncation engine, the completions cache and the orchestrator
    ([CodyCompletionItemProvider], [CompletionsCache]) are exercised by
    [completion.test.ts] but their source files are not part of the
    tree; they are modelled from the specification, sections 4.2 to 4.4
    and 7. *)

Module Completions.
Import JS TextProcessing.

(** [a === b] on strings. *)
Fixpoint eqString (a b : jsstring) : bool :=
  match a, b with
  | [], [] => true
  | x :: a', y :: b' => (x =? y)%N && eqString a' b'
  | _, _ => false
  end.

(** A line with nothing but white space. *)
Definition isBlank (line : jsstring) : bool := len (trim line) =? 0.

(** *** Multi-line truncation engine (specification, 4.2) *)
Section TruncationEngine.

(** The inputs of the engine, and the two tests that 4.2 names without
    defining them. *)

(** The declared tab width. *)
Variable tabWidth : Z.
(** The per-language recogniser of continuation lines ([else], [elif],
    [catch] and the like); the keyword sets are not given. *)
Variable isContinuation : jsstring -> bool.
(** Closing-bracket retention: whether a terminator line is a lone
    closing bracket that matches a bracket opened within the emitted
    region and that the surrounding text has not already supplied.
    The first argument is the emitted region. *)
Variable retainsClosingBracket : list jsstring -> jsstring -> bool.
(** The indentation of the line containing the cursor, and whether
    that line holds nothing but white space before the cursor. *)
Variable startIndentation : Z.
Variable startLineBlank : bool.

(** Modelled from the spec: the candidate-terminator test of 4.2, whose
    source is missing: indentation less than or equal to the start
    indentation, and not a continuation line.  When the cursor's line
    holds white space only, the candidate starts a statement at the
    start indentation and its further lines at that indentation belong
    to it: the comparison is then strict, as the tests "skips over
    empty lines", "skips over else blocks" and "ranks results by number
    of lines" of [completion.test.ts] have it. *)
Definition isTerminator (line : jsstring) : bool :=
  (if startLineBlank
   then indentation tabWidth line <? startIndentation
   else indentation tabWidth line <=? startIndentation)
  && negb (isContinuation line).

(** Modelled from the spec: the line walk of the truncation engine of
    4.2, whose source is missing.  Blank lines are passed over;
    emission stops at the first terminator, which is left out unless
    closing-bracket retention keeps it. *)
Fixpoint walk (emitted lines : list jsstring) : list jsstring :=
  match lines with
  | [] => emitted
  | line :: rest =>
      if isBlank line then walk (emitted ++ [line]) rest
      else if isTerminator line
           then if retainsClosingBracket emitted line
                then emitted ++ [line] else emitted
           else walk (emitted ++ [line]) rest
  end.

(** Modelled from the spec: the truncation engine of 4.2, whose source
    is missing.  The first line of a candidate continues the line that
    contains the cursor, the start line itself; the walk examines the
    lines after it. *)
Definition truncateMultiline (candidate : jsstring) : jsstring :=
  match split candidate NL with
  | [] => []
  | firstLine :: rest => join NL (walk [firstLine] rest)
  end.

End TruncationEngine.

(** Modelled from the spec: a continuation recogniser for brace
    languages, the keyword tables being missing: the line closes the
    block and goes on with [else], as in [} else {]. *)
Definition braceElse (line : jsstring) : bool :=
  startsWith (dropTabsAndSpaces line) (lit "} else").

(** *** Completions cache (specification, 4.3) *)

(** Modelled from the spec: a cache entry of 3 and 4.3, the class
    [CompletionsCache] being missing: the prefix and suffix it is
    keyed by and the completions stored for them. *)
Record CacheEntry := {
  cachedPrefix : jsstring;
  cachedSuffix : jsstring;
  cachedCompletions : list jsstring
}.

(** Modelled from the spec: the cache of 4.3, whose source is missing:
    the entries in insertion order, the oldest first. *)
Definition CompletionsCache := list CacheEntry.

(** Modelled from the spec: [add] of the completions cache of 4.3, whose
    source is missing: the oldest entries leave once the capacity is
    exceeded. *)
Definition add (capacity : nat) (cache : CompletionsCache)
    (prefix suffix : jsstring) (completions : list jsstring) : CompletionsCache :=
  let cache' :=
    cache ++ [{| cachedPrefix := prefix; cachedSuffix := suffix;
                 cachedCompletions := completions |}] in
  skipn (length cache' - capacity) cache'.

(** [typed] is a prefix of [completion] and shorter than it. *)
Definition isStrictPrefixOf (typed completion : jsstring) : bool :=
  startsWith completion typed && (len typed <? len completion).

(** Modelled from the spec: the synthesis rule of 4.3, whose source is
    missing: the new prefix is the cached prefix followed by characters
    that are a strict prefix of a stored completion, the suffix is
    unchanged, and the rest of that completion is the candidate. *)
Definition synthesizeFrom (prefix suffix : jsstring) (e : CacheEntry) : list jsstring :=
  if eqString suffix (cachedSuffix e) && startsWith prefix (cachedPrefix e)
  then
    let typed := slice prefix (len (cachedPrefix e)) None in
    flat_map
      (fun completion =>
         if isStrictPrefixOf typed completion
         then [slice completion (len typed) None] else [])
      (cachedCompletions e)
  else [].

(** Modelled from the spec: [get] of the completions cache of 4.3, whose
    source is missing: exact or position-contained lookup; [None] is
    [undefined]. *)
Definition get (cache : CompletionsCache) (prefix suffix : jsstring)
    : option (list jsstring) :=
  match flat_map (synthesizeFrom prefix suffix) cache with
  | [] => None
  | candidates => Some candidates
  end.

(** *** Ranking and deduplication (specification, 4.4) *)

(** The number of lines of a candidate. *)
Definition numberOfLines (text : jsstring) : Z := len (split text NL).

Fixpoint insertByLines (c : jsstring) (ranked : list jsstring) : list jsstring :=
  match ranked with
  | [] => [c]
  | d :: rest =>
      if numberOfLines d >? numberOfLines c
      then d :: insertByLines c rest
      else c :: ranked
  end.

(** Modelled from the spec: the ranking of 4.4, whose source is missing:
    descending number of lines, ties in the original order. *)
Fixpoint rank (candidates : list jsstring) : list jsstring :=
  match candidates with
  | [] => []
  | c :: rest => insertByLines c (rank rest)
  end.

(** Modelled from the spec: the deduplication of 4.4, whose source is
    missing: of candidates with identical text the first is kept. *)
Fixpoint dedupe (candidates : list jsstring) : list jsstring :=
  match candidates with
  | [] => []
  | c :: rest => c :: filter (fun d => negb (eqString c d)) (dedupe rest)
  end.

(** Modelled from the spec: the list returned, of 4.4, whose source is
    missing: the surviving candidates ranked, then deduplicated. *)
Definition aggregate (candidates : list jsstring) : list jsstring :=
  dedupe (rank candidates).

(** *** Orchestrator (specification, 4.4 and 7) *)

(** Modelled from the spec: the trigger context of 3, whose source is
    missing.  A candidate is its insertion text; the replacement range
    plays no part here. *)
Record Trigger := {
  languageId : jsstring;
  prefix : jsstring;
  suffix : jsstring;
  explicitInvoke : bool;
  selectedCompletionInfo : option jsstring
}.

(** Modelled from the spec: the parameters of a request of 4.4 and 6,
    as far as the pipeline sets them. *)
Record CompletionParameters := {
  sampling : nat;
  multiline : bool;
  stopSequences : list jsstring
}.

(** What the external client does with a request: its promise
    resolves, rejects, or never settles. *)
Inductive Outcome :=
  | Resolved (completion : jsstring)
  | Threw
  | Stalled.

(** An awaited computation: a value, an exception, or no answer. *)
Inductive Attempt (A : Type) :=
  | Ok (a : A)
  | Thrown
  | Pending.

Arguments Ok {A} a.
Arguments Thrown {A}.
Arguments Pending {A}.

(** Modelled from the spec: the heuristics that 4.4 names without
    defining them, the tables of the host, and the settings of the
    provider, all missing from the tree. *)
Record Settings := {
  Emoji_Presentation : N -> bool;
  tabWidth : Z;
  isContinuation : jsstring -> jsstring -> bool;
  retainsClosingBracket : Trigger -> list jsstring -> jsstring -> bool;
  triggerMoreEagerly : bool;
  midIdentifier : jsstring -> bool;
  onlyClosingTags : jsstring -> bool;
  multilineEligible : Trigger -> bool;
  multilineRequests : nat;
  capacity : nat
}.

Section Orchestrator.

Variable cfg : Settings.

(** The text of the cursor's line after the cursor. *)
Definition sameLineSuffix (t : Trigger) : jsstring :=
  match first (split (suffix t) NL) with Some l => l | None => [] end.

(** The text of the cursor's line before the cursor. *)
Definition sameLinePrefix (t : Trigger) : jsstring :=
  slice (prefix t) (lastIndexOf (prefix t) NL + 1) None.

(** Modelled from the spec: the [Deciding] state of 4.4, whose source is
    missing: the three reasons to reject a trigger. *)
Definition rejects (t : Trigger) : bool :=
  match selectedCompletionInfo t with Some _ => true | None => false end
  || (midIdentifier cfg (prefix t) && negb (triggerMoreEagerly cfg))
  || (negb (isBlank (sameLineSuffix t)) && negb (onlyClosingTags cfg (sameLineSuffix t))).

(** Modelled from the spec: the requests of the [Requesting] state of
    4.4, whose source is missing: one in single-line mode, several with
    varied sampling in multi-line mode, each with its stop sequences. *)
Definition requestsFor (t : Trigger) : list CompletionParameters :=
  if multilineEligible cfg t
  then map (fun k => {| sampling := k; multiline := true;
                        stopSequences := [lit "\n\nHuman:"; CLOSING_CODE_TAG] |})
           (seq 0 (multilineRequests cfg))
  else [{| sampling := 0; multiline := false;
           stopSequences := [lit "\n\nHuman:"; CLOSING_CODE_TAG; lit "\n\n"] |}].

(** Modelled from the spec: the [Processing] state of 4.4, whose source
    is missing: the chain applied to one raw response; a text that ends
    up empty is dropped. *)
Definition process (t : Trigger) (multi : bool) (raw : jsstring) : list jsstring :=
  let c := extractFromCodeBlock raw in
  let c := fixBadCompletionStart (Emoji_Presentation cfg) c in
  let c := trimUntilSuffix c (prefix t) (suffix t) in
  let c :=
    if multi
    then truncateMultiline (tabWidth cfg) (isContinuation cfg (languageId t))
           (retainsClosingBracket cfg t)
           (indentation (tabWidth cfg) (sameLinePrefix t))
           (isBlank (sameLinePrefix t)) c
    else c in
  let c := collapseDuplicativeWhitespace (prefix t) c in
  if len c =? 0 then [] else [c].

(** Modelled from the spec: one branch of the [Requesting] state, whose
    source is missing: the request is awaited and its response
    processed. *)
Definition requestBranch (client : CompletionParameters -> Outcome)
    (t : Trigger) (params : CompletionParameters) : Attempt (list jsstring) :=
  match client params with
  | Resolved completion => Ok (process t (multiline params) completion)
  | Threw => Thrown
  | Stalled => Pending
  end.

(** Modelled from the spec: the failure rule of 4.4 and 7, whose source
    is missing: a request that throws counts as zero candidates for its
    branch. *)
Definition recover (a : Attempt (list jsstring)) : Attempt (list jsstring) :=
  match a with
  | Thrown => Ok []
  | _ => a
  end.

(** Modelled from the spec: the join of 5, whose source is missing: all
    the branches are awaited; an exception in one of them is the
    exception of the whole, and one that never settles holds up the
    rest. *)
Fixpoint joinAll (branches : list (Attempt (list jsstring))) : Attempt (list jsstring) :=
  match branches with
  | [] => Ok []
  | b :: rest =>
      match b, joinAll rest with
      | Thrown, _ => Thrown
      | _, Thrown => Thrown
      | Pending, _ => Pending
      | _, Pending => Pending
      | Ok cs, Ok ds => Ok (cs ++ ds)
      end
  end.

(** Modelled from the spec: [provideInlineCompletionItems], whose
    source is missing.  The control flow is that of 2: the trigger
    arrives, the cache is consulted, and on a miss only the rest
    follows; a hit is the [ShortCircuit] of 4.4, without a request.
    On a miss the [Deciding] state rejects the trigger, without a
    request either, or lets the requests go.  The answer comes with
    the requests made to the client and the cache afterwards. *)
Definition provideInlineCompletionItems (client : CompletionParameters -> Outcome)
    (cache : CompletionsCache) (t : Trigger)
    : Attempt (list jsstring) * list CompletionParameters * CompletionsCache :=
  match get cache (prefix t) (suffix t) with
  | Some candidates => (Ok (aggregate candidates), [], cache)
  | None =>
      if rejects t then (Ok [], [], cache)
      else
        let requests := requestsFor t in
        match joinAll (map (fun p => recover (requestBranch client t p)) requests) with
        | Ok survivors =>
            let items := aggregate survivors in
            (Ok items, requests, add (capacity cfg) cache (prefix t) (suffix t) items)
        | Thrown => (Thrown, requests, cache)
        | Pending => (Pending, requests, cache)
        end
  end.

End Orchestrator.

End Completions.

(** * Properties *)

(** ** Facts about the string primitives *)

Module JSFacts.
Import JS.

Lemma len_nonneg {A : Type} (l : list A) : 0 <= len l.
Proof. unfold len. lia. Qed.

Lemma len_app {A : Type} (l1 l2 : list A) : len (l1 ++ l2) = len l1 + len l2.
Proof. unfold len. rewrite length_app. lia. Qed.

Lemma len_zero_nil {A : Type} (l : list A) : len l = 0 -> l = [].
Proof. destruct l; [reflexivity | unfold len; simpl; lia]. Qed.

Lemma startsWith_nil (s : jsstring) : startsWith s [] = true.
Proof. now destruct s. Qed.

Lemma startsWith_app (t r : jsstring) : startsWith (t ++ r) t = true.
Proof.
  induction t as [| b t IH]; simpl; [apply startsWith_nil |].
  now rewrite N.eqb_refl, IH.
Qed.

Lemma startsWith_inv (s t : jsstring) :
  startsWith s t = true -> exists r, s = t ++ r.
Proof.
  revert s. induction t as [| b t IH]; intros s H.
  - now exists s.
  - destruct s as [| a s]; simpl in H; [discriminate |].
    apply andb_true_iff in H as [Hab Hst].
    apply N.eqb_eq in Hab. subst b.
    destruct (IH _ Hst) as [r ->]. now exists r.
Qed.

(** [t] occurs in [s] at position [n]. *)
Definition occursAt (t s : jsstring) (n : nat) : Prop :=
  exists a b, s = a ++ t ++ b /\ length a = n.

Lemma occursAt_O (t s : jsstring) : occursAt t s 0 <-> startsWith s t = true.
Proof.
  split.
  - intros (a & b & -> & Ha). destruct a; [| discriminate]. simpl. apply startsWith_app.
  - intros H. destruct (startsWith_inv _ _ H) as [r ->]. now exists [], r.
Qed.

Lemma occursAt_S (t : jsstring) (c : N) (s : jsstring) (n : nat) :
  occursAt t (c :: s) (S n) <-> occursAt t s n.
Proof.
  split.
  - intros (a & b & E & Ha). destruct a as [| x a]; [discriminate |].
    simpl in E. injection E as -> ->. exists a, b. split; [reflexivity |].
    simpl in Ha. lia.
  - intros (a & b & -> & Ha). exists (c :: a), b. split; [reflexivity |].
    simpl. lia.
Qed.

Lemma occursAt_nil_inv (t : jsstring) (n : nat) : occursAt t [] n -> n = 0%nat.
Proof.
  intros (a & b & E & Ha). destruct a; [now subst | discriminate].
Qed.

Lemma indexOfFrom_eq (s t : jsstring) (i : Z) :
  indexOfFrom s t i =
  if startsWith s t then i
  else match s with [] => -1 | _ :: s' => indexOfFrom s' t (i + 1) end.
Proof. now destruct s. Qed.

(** [indexOf] answers [-1] or the first position at which [t] occurs. *)
Lemma indexOfFrom_spec (t s : jsstring) (i : Z) :
  0 <= i ->
  (indexOfFrom s t i = -1 /\ forall n, ~ occursAt t s n)
  \/ (exists n, indexOfFrom s t i = i + Z.of_nat n /\ occursAt t s n
              /\ forall m, occursAt t s m -> (n <= m)%nat).
Proof.
  revert i. induction s as [| c s IH]; intros i Hi; rewrite indexOfFrom_eq.
  - destruct (startsWith [] t) eqn:E.
    + right. exists 0%nat. split; [lia |]. split; [now apply occursAt_O | intros; lia].
    + left. split; [reflexivity |]. intros n Hn.
      pose proof (occursAt_nil_inv _ _ Hn) as ->.
      apply occursAt_O in Hn. congruence.
  - destruct (startsWith (c :: s) t) eqn:E.
    + right. exists 0%nat. split; [lia |]. split; [now apply occursAt_O | intros; lia].
    + destruct (IH (i + 1) ltac:(lia)) as [[Hm Hno] | (n & Hn & Hocc & Hmin)].
      * left. split; [exact Hm |]. intros [| n] Hn.
        -- apply occursAt_O in Hn. congruence.
        -- apply occursAt_S in Hn. exact (Hno _ Hn).
      * right. exists (S n). split; [rewrite Hn; lia |]. split.
        -- now apply occursAt_S.
        -- intros [| m] Hm.
           ++ apply occursAt_O in Hm. congruence.
           ++ apply occursAt_S in Hm. apply Hmin in Hm. lia.
Qed.

Lemma indexOf_spec (t s : jsstring) :
  (indexOf s t = -1 /\ forall n, ~ occursAt t s n)
  \/ (exists n, indexOf s t = Z.of_nat n /\ occursAt t s n
              /\ forall m, occursAt t s m -> (n <= m)%nat).
Proof.
  unfold indexOf. destruct (indexOfFrom_spec t s 0 ltac:(lia)) as [H | (n & H1 & H2)].
  - now left.
  - right. exists n. now rewrite H1.
Qed.

Lemma includes_true (s t : jsstring) :
  includes s t = true <-> exists n, occursAt t s n.
Proof.
  unfold includes.
  destruct (indexOf_spec t s) as [[E Hno] | (n & E & Hocc & _)]; rewrite E.
  - simpl. split; [discriminate | intros [n Hn]; now apply Hno in Hn].
  - replace (Z.of_nat n =? -1) with false by (symmetry; apply Z.eqb_neq; lia).
    simpl. split; [intros _; now exists n | reflexivity].
Qed.

Lemma includes_false (s t : jsstring) :
  includes s t = false <-> forall n, ~ occursAt t s n.
Proof.
  split.
  - intros H n Hn. assert (includes s t = true) by (apply includes_true; eauto).
    congruence.
  - intros H. destruct (includes s t) eqn:E; [| reflexivity].
    apply includes_true in E as [n Hn]. now apply H in Hn.
Qed.

(** *** [slice] *)

Lemma slice_prefix {A : Type} (l : list A) (h : Z) :
  0 <= h <= len l -> slice l 0 (Some h) = firstn (Z.to_nat h) l.
Proof.
  intros Hh. unfold slice, clampIndex. simpl.
  replace (h <? 0) with false by (symmetry; apply Z.ltb_ge; lia).
  pose proof (len_nonneg l).
  replace (Z.max (Z.min h (len l) - Z.min 0 (len l)) 0) with h by lia.
  replace (Z.to_nat (Z.min 0 (len l))) with 0%nat by lia.
  reflexivity.
Qed.

Lemma slice_suffix {A : Type} (l : list A) (h : Z) :
  0 <= h <= len l -> slice l h None = skipn (Z.to_nat h) l.
Proof.
  intros Hh. unfold slice, clampIndex.
  replace (h <? 0) with false by (symmetry; apply Z.ltb_ge; lia).
  replace (Z.min h (len l)) with h by lia.
  rewrite firstn_all2; [reflexivity |].
  rewrite length_skipn. unfold len in *. lia.
Qed.

Lemma slice_all {A : Type} (l : list A) (h : Z) :
  len l <= h -> slice l 0 (Some h) = l.
Proof.
  intros Hh. unfold slice, clampIndex. simpl. pose proof (len_nonneg l).
  replace (h <? 0) with false by (symmetry; apply Z.ltb_ge; lia).
  replace (Z.to_nat (Z.min 0 (len l))) with 0%nat by lia.
  simpl. apply firstn_all2. unfold len in *. lia.
Qed.

(** *** White space *)

Definition allWhiteSpace (w : jsstring) : Prop := forallb isWhiteSpace w = true.

Lemma trimStart_decompose (s : jsstring) :
  exists w, s = w ++ trimStart s /\ allWhiteSpace w.
Proof.
  induction s as [| c s (w & E & Hw)]; simpl.
  - now exists [].
  - destruct (isWhiteSpace c) eqn:Hc.
    + exists (c :: w). split; [simpl; now f_equal |].
      unfold allWhiteSpace. simpl. now rewrite Hc.
    + now exists [].
Qed.

Lemma trimStart_head (s : jsstring) (c : N) (r : jsstring) :
  trimStart s = c :: r -> isWhiteSpace c = false.
Proof.
  induction s as [| x s IH]; simpl; [discriminate |].
  destruct (isWhiteSpace x) eqn:Hx; [exact IH |].
  intros E. injection E as -> _. exact Hx.
Qed.

Lemma allWhiteSpace_app (u v : jsstring) :
  allWhiteSpace (u ++ v) <-> allWhiteSpace u /\ allWhiteSpace v.
Proof. unfold allWhiteSpace. rewrite forallb_app. apply andb_true_iff. Qed.

Lemma allWhiteSpace_rev (w : jsstring) : allWhiteSpace w -> allWhiteSpace (rev w).
Proof.
  unfold allWhiteSpace. rewrite !forallb_forall. intros H x Hx.
  apply H. now apply in_rev.
Qed.

Lemma trimEnd_decompose (s : jsstring) :
  exists w, s = trimEnd s ++ w /\ allWhiteSpace w.
Proof.
  unfold trimEnd. destruct (trimStart_decompose (rev s)) as (w & E & Hw).
  exists (rev w). split; [| now apply allWhiteSpace_rev].
  rewrite <- rev_app_distr, <- E. symmetry. apply rev_involutive.
Qed.

Lemma trim_decompose (s : jsstring) :
  exists w1 w2, s = w1 ++ trim s ++ w2 /\ allWhiteSpace w1 /\ allWhiteSpace w2.
Proof.
  destruct (trimStart_decompose s) as (w1 & E1 & H1).
  destruct (trimEnd_decompose (trimStart s)) as (w2 & E2 & H2).
  exists w1, w2. unfold trim. split; [| now split].
  now rewrite <- E2.
Qed.

(** *** [split] and [join] *)

Lemma splitGo_nonempty (sep s : jsstring) (k : nat) (cur : jsstring) :
  splitGo sep s k cur <> [].
Proof.
  revert k cur. induction s as [| c s IH]; intros k cur; cbn [splitGo]; [discriminate |].
  destruct k; [| apply IH].
  destruct (startsWith (c :: s) sep); [discriminate | apply IH].
Qed.

Lemma split_nonempty (s sep : jsstring) : sep <> [] -> split s sep <> [].
Proof.
  intros Hsep. destruct sep; [contradiction |]. apply splitGo_nonempty.
Qed.

Lemma split_first_defined (s sep : jsstring) :
  sep <> [] -> exists piece, first (split s sep) = Some piece.
Proof.
  intros Hsep. pose proof (split_nonempty s sep Hsep).
  destruct (split s sep) as [| piece rest]; [contradiction | now exists piece].
Qed.

Lemma join_cons (sep l : jsstring) (rest : list jsstring) :
  rest <> [] -> join sep (l :: rest) = l ++ sep ++ join sep rest.
Proof. destruct rest; [contradiction | reflexivity]. Qed.

Lemma join_app (sep : jsstring) (l1 l2 : list jsstring) :
  l1 <> [] -> l2 <> [] ->
  join sep (l1 ++ l2) = join sep l1 ++ sep ++ join sep l2.
Proof.
  intros H1 H2. induction l1 as [| x l1 IH]; [contradiction |].
  destruct l1 as [| y l1].
  - simpl app. now rewrite join_cons.
  - change ((x :: y :: l1) ++ l2) with (x :: (y :: l1) ++ l2).
    rewrite join_cons by discriminate.
    rewrite IH by discriminate.
    rewrite (join_cons sep x (y :: l1)) by discriminate.
    now rewrite <- !app_assoc.
Qed.

Lemma startsWith_single (x c : N) (s : jsstring) :
  startsWith (x :: s) [c] = (x =? c)%N.
Proof. simpl. rewrite startsWith_nil. apply andb_true_r. Qed.

(** With a separator of one code unit, joining the pieces of [split]
    gives the string back. *)
Lemma join_splitGo_single (c : N) (s cur : jsstring) :
  join [c] (splitGo [c] s 0 cur) = rev cur ++ s.
Proof.
  revert cur. induction s as [| x s IH]; intros cur.
  - simpl. now rewrite app_nil_r.
  - cbn [splitGo]. rewrite startsWith_single.
    destruct (x =? c)%N eqn:E.
    + apply N.eqb_eq in E. subst x. cbn [length Nat.sub].
      rewrite join_cons by apply splitGo_nonempty.
      rewrite IH. reflexivity.
    + rewrite IH. simpl. now rewrite <- app_assoc.
Qed.

Lemma join_split_single (c : N) (s : jsstring) : join [c] (split s [c]) = s.
Proof. unfold split. now rewrite join_splitGo_single. Qed.

Lemma occursAt_extend (t s r : jsstring) (n : nat) :
  occursAt t s n -> occursAt t (s ++ r) n.
Proof.
  intros (a & b & -> & Ha). exists a, (b ++ r). split; [| exact Ha].
  now rewrite <- !app_assoc.
Qed.

Lemma occursAt_bound (t s : jsstring) (n : nat) :
  occursAt t s n -> (n + length t <= length s)%nat.
Proof.
  intros (a & b & -> & Ha). rewrite !length_app. lia.
Qed.

(** [before] is the part of [s] in front of the first occurrence of
    [t]; all of [s] when [t] does not occur. *)
Definition isBeforeFirst (t s before : jsstring) : Prop :=
  ((forall n, ~ occursAt t s n) /\ before = s)
  \/ (exists rest, s = before ++ t ++ rest
                   /\ forall m, occursAt t s m -> (length before <= m)%nat).

Lemma first_splitGo (sep s cur : jsstring) :
  sep <> [] ->
  exists before,
    first (splitGo sep s 0 cur) = Some (rev cur ++ before)
    /\ isBeforeFirst sep s before.
Proof.
  intros Hsep. revert cur. induction s as [| x s IH]; intros cur.
  - exists []. split; [simpl; now rewrite app_nil_r |].
    left. split; [| reflexivity]. intros n Hn.
    apply occursAt_bound in Hn. destruct sep; [contradiction | simpl in Hn; lia].
  - cbn [splitGo]. destruct (startsWith (x :: s) sep) eqn:E.
    + exists []. split; [simpl; now rewrite app_nil_r |].
      right. destruct (startsWith_inv _ _ E) as [rest Hrest].
      exists rest. split; [exact Hrest | simpl; intros; lia].
    + destruct (IH (x :: cur)) as (before & Hfirst & Hbefore).
      exists (x :: before). split.
      * rewrite Hfirst. simpl. now rewrite <- app_assoc.
      * destruct Hbefore as [[Hno ->] | (rest & Hs & Hmin)].
        -- left. split; [| reflexivity]. intros [| n] Hn.
           ++ apply occursAt_O in Hn. congruence.
           ++ apply occursAt_S in Hn. exact (Hno _ Hn).
        -- right. exists rest. split; [now rewrite Hs |].
           intros [| m] Hm.
           ++ apply occursAt_O in Hm. congruence.
           ++ apply occursAt_S in Hm. apply Hmin in Hm. simpl. lia.
Qed.

(** The first piece of [split] is what precedes the first separator. *)
Lemma first_split (s sep : jsstring) :
  sep <> [] ->
  exists before, first (split s sep) = Some before /\ isBeforeFirst sep s before.
Proof.
  intros Hsep. destruct (first_splitGo sep s [] Hsep) as (before & H1 & H2).
  exists before. split; [| exact H2].
  unfold split. destruct sep; [contradiction | exact H1].
Qed.

(** The last code unit of [s] is white space. *)
Definition endsInWhiteSpace (s : jsstring) : bool :=
  match rev s with
  | [] => false
  | c :: _ => isWhiteSpace c
  end.

Lemma trimEnd_tight (s : jsstring) : endsInWhiteSpace (trimEnd s) = false.
Proof.
  unfold endsInWhiteSpace, trimEnd. rewrite rev_involutive.
  destruct (trimStart (rev s)) as [| c r] eqn:E; [reflexivity |].
  now apply trimStart_head in E.
Qed.

(** *** Blank lines, leading white space *)

Lemma trimStart_all (w : jsstring) : allWhiteSpace w -> trimStart w = [].
Proof.
  unfold allWhiteSpace. induction w as [| c w IH]; simpl; [reflexivity |].
  intros H. apply andb_true_iff in H as [-> H]. now apply IH.
Qed.

Lemma trim_nil_iff (l : jsstring) : trim l = [] <-> allWhiteSpace l.
Proof.
  split.
  - intros H. destruct (trim_decompose l) as (w1 & w2 & E & H1 & H2).
    rewrite H in E. simpl in E. rewrite E. now apply allWhiteSpace_app.
  - intros H. unfold trim. now rewrite (trimStart_all l H).
Qed.

Lemma nonblank_test (l : jsstring) :
  (len (trim l) >? 0) = true <-> ~ allWhiteSpace l.
Proof.
  rewrite <- trim_nil_iff. unfold len. destruct (trim l); simpl.
  - split; [discriminate | intros H; now contradiction H].
  - split; [discriminate | intros _]. apply Z.gtb_lt. lia.
Qed.

(** The white space a string starts with. *)
Fixpoint leadingWhiteSpace (s : jsstring) : jsstring :=
  match s with
  | [] => []
  | c :: s' => if isWhiteSpace c then c :: leadingWhiteSpace s' else []
  end.

Lemma leading_trimStart (s : jsstring) : s = leadingWhiteSpace s ++ trimStart s.
Proof.
  induction s as [| c s IH]; simpl; [reflexivity |].
  destruct (isWhiteSpace c); simpl; [now f_equal | reflexivity].
Qed.

Lemma searchNonWhitespace_leading (s : jsstring) (i : Z) :
  searchNonWhitespace s i = i + len (leadingWhiteSpace s).
Proof.
  revert i. induction s as [| c s IH]; intros i; simpl.
  - unfold len. simpl. lia.
  - destruct (isWhiteSpace c).
    + rewrite IH. unfold len. simpl length. lia.
    + unfold len. simpl. lia.
Qed.

Lemma slice_firstn {A : Type} (l : list A) (h : Z) :
  0 <= h -> slice l 0 (Some h) = firstn (Z.to_nat h) l.
Proof.
  intros Hh. destruct (Z.le_gt_cases h (len l)) as [H | H].
  - apply slice_prefix. lia.
  - rewrite slice_all by lia. symmetry. apply firstn_all2. unfold len in H. lia.
Qed.

(** *** [lastIndexOf] of a line feed *)

Lemma lastIndexOfFrom_newline (s : jsstring) (i best : Z) :
  (~ In 10%N s /\ lastIndexOfFrom s [10%N] i best = best)
  \/ (exists a b, s = a ++ 10%N :: b /\ ~ In 10%N b
                  /\ lastIndexOfFrom s [10%N] i best = i + len a).
Proof.
  revert i best. induction s as [| x s IH]; intros i best.
  - left. split; [intros [] | reflexivity].
  - cbn [lastIndexOfFrom]. rewrite startsWith_single.
    destruct (IH (i + 1) (if (x =? 10)%N then i else best))
      as [[Hno E] | (a & b & Hs & Hb & E)]; rewrite E.
    + destruct (x =? 10)%N eqn:Hx.
      * apply N.eqb_eq in Hx. subst x. right. exists [], s.
        repeat split; [exact Hno | unfold len; simpl; lia].
      * apply N.eqb_neq in Hx. left. split; [| reflexivity].
        intros [H | H]; [now apply Hx | now apply Hno].
    + right. exists (x :: a), b. repeat split; [now rewrite Hs | exact Hb |].
      unfold len. simpl length. lia.
Qed.

End JSFacts.

(** ** [text-processing.ts]: whitespace bookkeeping *)

Module TextProcessingFacts.
Import JS JSFacts TextProcessing.

(** The three components of a [TrimmedString] put back together. *)
Definition reassemble (t : TrimmedString) : jsstring :=
  leadSpace t ++ trimmed t ++ rearSpace t.

Lemma slices_around (s a t b : jsstring) :
  s = a ++ t ++ b ->
  slice s 0 (Some (len a)) = a /\ slice s (len a + len t) None = b.
Proof.
  intros ->. split.
  - rewrite slice_prefix by (rewrite len_app; pose proof (len_nonneg (t ++ b));
                             pose proof (len_nonneg a); lia).
    unfold len. rewrite Nat2Z.id. rewrite firstn_app, Nat.sub_diag, firstn_all.
    simpl. apply app_nil_r.
  - rewrite slice_suffix
      by (rewrite !len_app; pose proof (len_nonneg a); pose proof (len_nonneg t);
          pose proof (len_nonneg b); lia).
    unfold len. rewrite <- Nat2Z.inj_add, Nat2Z.id.
    rewrite app_assoc, <- length_app. rewrite skipn_app, Nat.sub_diag, skipn_all.
    reflexivity.
Qed.

(** [indexOf] finds the trimmed text in the string it was trimmed
    from. *)
Lemma indexOf_trim (s : jsstring) :
  exists a b, s = a ++ trim s ++ b /\ indexOf s (trim s) = len a.
Proof.
  destruct (trim_decompose s) as (w1 & w2 & E & _ & _).
  destruct (indexOf_spec (trim s) s) as [[_ Hno] | (n & Hn & (a & b & Hs & Ha) & _)].
  - exfalso. apply (Hno (length w1)). now exists w1, w2.
  - exists a, b. split; [exact Hs |]. rewrite Hn. unfold len. now rewrite Ha.
Qed.

Lemma reassemble_trimSpace (s : jsstring) : reassemble (trimSpace s) = s.
Proof.
  unfold reassemble, trimSpace. cbn [leadSpace trimmed rearSpace].
  destruct (indexOf_trim s) as (a & b & Hs & ->).
  destruct (slices_around s a (trim s) b Hs) as [-> ->].
  now symmetry.
Qed.

(** C4. For every string [s], the [TrimmedString] that [trimSpace]
    computes puts [s] back together: [leadSpace], then [trimmed], then
    [rearSpace] is exactly [s]. *)
Theorem trimSpace_roundtrip (s : jsstring) :
  leadSpace (trimSpace s) ++ trimmed (trimSpace s) ++ rearSpace (trimSpace s) = s.
Proof.
  pose proof (reassemble_trimSpace s) as H. unfold reassemble in H. exact H.
Qed.

(** *** [getHeadAndTail] *)

Lemma tailStartLoop_range (revLines : list jsstring) (i c : Z) :
  len revLines <= i + 1 ->
  tailStartLoop revLines i c = -1
  \/ i - len revLines < tailStartLoop revLines i c <= i.
Proof.
  revert i c. induction revLines as [| line rest IH]; intros i c Hi; simpl.
  - now left.
  - assert (Hl : len (line :: rest) = len rest + 1) by (unfold len; simpl length; lia).
    rewrite Hl in *. pose proof (len_nonneg rest).
    match goal with |- context [if ?b then i else _] => destruct b end.
    + right. lia.
    + match goal with |- context [tailStartLoop rest (i - 1) ?c'] =>
        destruct (IH (i - 1) c' ltac:(lia)) as [H0 | H0] end.
      * now left.
      * right. lia.
Qed.

Lemma findTailStart_range (lines : list jsstring) :
  findTailStart lines = -1 \/ 0 <= findTailStart lines < len lines.
Proof.
  unfold findTailStart.
  assert (Hr : len (rev lines) = len lines) by (unfold len; now rewrite length_rev).
  destruct (tailStartLoop_range (rev lines) (len lines - 1) 0 ltac:(lia)) as [H | H].
  - now left.
  - right. lia.
Qed.

(** The lines before and from [k] on, each group joined, are the whole
    text but for the line feed between the two groups. *)
Lemma join_around (lines : list jsstring) (k : Z) :
  0 <= k < len lines ->
  join NL (slice lines 0 (Some k))
    ++ (if k =? 0 then [] else NL)
    ++ join NL (slice lines k None)
  = join NL lines.
Proof.
  intros Hk. rewrite slice_prefix, slice_suffix by lia.
  rewrite <- (firstn_skipn (Z.to_nat k) lines) at 3.
  destruct (k =? 0) eqn:E.
  - apply Z.eqb_eq in E. subst k. reflexivity.
  - apply Z.eqb_neq in E. rewrite join_app; [reflexivity | |].
    + intros H0. apply (f_equal (@length _)) in H0.
      rewrite length_firstn in H0. unfold len in Hk. simpl in H0. lia.
    + intros H0. apply (f_equal (@length _)) in H0.
      rewrite length_skipn in H0. unfold len in Hk. simpl in H0. lia.
Qed.

(** What [getHeadAndTail] leaves out between [head] and [tail]: the
    line feed that [split] removed in front of the first line of the
    tail, when the tail does not start at the first line. *)
Definition headTailSeparator (s : jsstring) : jsstring :=
  if findTailStart (split s NL) =? 0 then [] else NL.

(** C5, as the code has it.  For every prefix [s] on which
    [getHeadAndTail] sets no [overlap], the components of [head], then
    the separating line feed (absent when the tail starts at the first
    line), then the components of [tail] are exactly [s]. *)
Theorem getHeadAndTail_reassemble (s : jsstring) :
  overlap (getHeadAndTail s) = None ->
  reassemble (head (getHeadAndTail s)) ++ headTailSeparator s
    ++ reassemble (tail (getHeadAndTail s)) = s.
Proof.
  unfold getHeadAndTail, headTailSeparator. fold NL.
  destruct (findTailStart_range (split s NL)) as [H | H].
  - rewrite H. simpl. discriminate.
  - replace (findTailStart (split s NL) =? -1) with false
      by (symmetry; apply Z.eqb_neq; lia).
    intros _. cbn [head tail].
    rewrite !reassemble_trimSpace.
    rewrite join_around by exact H.
    apply join_split_single.
Qed.

(** The statement applies: ["a\nb\nc"] is split after its first line. *)
Lemma getHeadAndTail_reassemble_witness :
  overlap (getHeadAndTail (lit "a\nb\nc")) = None
  /\ reassemble (head (getHeadAndTail (lit "a\nb\nc")))
       ++ headTailSeparator (lit "a\nb\nc")
       ++ reassemble (tail (getHeadAndTail (lit "a\nb\nc"))) = lit "a\nb\nc".
Proof.
  split; [reflexivity |].
  apply (getHeadAndTail_reassemble (lit "a\nb\nc")). reflexivity.
Defined.

(** C5, as stated, fails: on ["a\nb\nc"] no [overlap] is set, [head]
    is ["a"] and [tail] is ["b\nc"], and the six components together
    are ["ab\nc"]: the line feed after the head is lost. *)
Lemma getHeadAndTail_loses_newline :
  overlap (getHeadAndTail (lit "a\nb\nc")) = None
  /\ reassemble (head (getHeadAndTail (lit "a\nb\nc")))
       ++ reassemble (tail (getHeadAndTail (lit "a\nb\nc"))) = lit "ab\nc"
  /\ reassemble (head (getHeadAndTail (lit "a\nb\nc")))
       ++ reassemble (tail (getHeadAndTail (lit "a\nb\nc"))) <> lit "a\nb\nc".
Proof.
  split; [reflexivity |]. split; [reflexivity |]. vm_compute. discriminate.
Qed.

(** *** [extractFromCodeBlock] *)

Lemma tags_nonempty : OPENING_CODE_TAG <> [] /\ CLOSING_CODE_TAG <> [].
Proof. split; discriminate. Qed.

(** The two cases of [extractFromCodeBlock]: [before] is the first
    piece of the split. *)
Lemma extractFromCodeBlock_cases (c : jsstring) :
  (includes c OPENING_CODE_TAG = true /\ extractFromCodeBlock c = [])
  \/ (includes c OPENING_CODE_TAG = false
      /\ exists before,
           isBeforeFirst CLOSING_CODE_TAG c before
           /\ extractFromCodeBlock c = trimEnd before).
Proof.
  unfold extractFromCodeBlock.
  destruct (includes c OPENING_CODE_TAG) eqn:E.
  - left. now split.
  - right. split; [reflexivity |].
    destruct (first_split c CLOSING_CODE_TAG (proj2 tags_nonempty))
      as (before & -> & Hbefore).
    now exists before.
Qed.

(** C6. For every raw completion [c]: when the opening tag occurs
    anywhere in [c], [extractFromCodeBlock] answers the empty string;
    otherwise it answers the part of [c] in front of the first closing
    tag (all of [c] when there is none) without its trailing white
    space and with nothing removed at the front. *)
Theorem extractFromCodeBlock_spec (c : jsstring) :
  ((exists n, occursAt OPENING_CODE_TAG c n) /\ extractFromCodeBlock c = [])
  \/ ((forall n, ~ occursAt OPENING_CODE_TAG c n)
      /\ exists before w,
           isBeforeFirst CLOSING_CODE_TAG c before
           /\ before = extractFromCodeBlock c ++ w
           /\ allWhiteSpace w
           /\ endsInWhiteSpace (extractFromCodeBlock c) = false).
Proof.
  destruct (extractFromCodeBlock_cases c) as [[E ->] | (E & before & Hbefore & ->)].
  - left. split; [now apply includes_true | reflexivity].
  - right. split; [now apply includes_false |].
    destruct (trimEnd_decompose before) as (w & Hw & Hws).
    exists before, w. repeat split; try assumption. apply trimEnd_tight.
Qed.

(** C10. For every input, in the string that [extractFromCodeBlock]
    answers neither the opening tag nor the closing tag occurs. *)
Theorem extractFromCodeBlock_no_tags (c : jsstring) (n : nat) :
  ~ occursAt OPENING_CODE_TAG (extractFromCodeBlock c) n
  /\ ~ occursAt CLOSING_CODE_TAG (extractFromCodeBlock c) n.
Proof.
  destruct (extractFromCodeBlock_cases c) as [[_ ->] | (E & before & Hbefore & R)].
  - split; intros H; apply occursAt_bound in H; simpl in H; lia.
  - assert (Hopen : forall m, ~ occursAt OPENING_CODE_TAG c m)
      by now apply includes_false.
    destruct (trimEnd_decompose before) as (w & Hw & _). rewrite <- R in Hw.
    assert (Hpre : exists rest, c = extractFromCodeBlock c ++ rest).
    { destruct Hbefore as [[_ Eb] | (rest & Eb & _)].
      - exists w. now rewrite <- Hw.
      - exists (w ++ CLOSING_CODE_TAG ++ rest).
        transitivity (before ++ CLOSING_CODE_TAG ++ rest); [exact Eb |].
        rewrite Hw. now rewrite <- app_assoc. }
    destruct Hpre as (rest & Hc). split; intros H.
    + apply (Hopen n). rewrite Hc. now apply occursAt_extend.
    + assert (Hin : occursAt CLOSING_CODE_TAG c n)
        by (rewrite Hc; now apply occursAt_extend).
      destruct Hbefore as [[Hno _] | (rest' & _ & Hmin)].
      * exact (Hno _ Hin).
      * apply Hmin in Hin. apply occursAt_bound in H.
        rewrite Hw, length_app in Hin. simpl in H. lia.
Qed.

(** *** [trimUntilSuffix] *)

(** The window compared with the suffix: the white space a line starts
    with and the 15 code units after it. *)
Definition window (line : jsstring) : jsstring :=
  leadingWhiteSpace line ++ firstn 15 (trimStart line).

Lemma getFirstNChars_window (line : jsstring) :
  getFirstNCharsPreservingLeadingSpaces line NUMBER_OF_CHARS_TO_MATCH_AND_CUT_SUFFIX
  = window line.
Proof.
  unfold getFirstNCharsPreservingLeadingSpaces, NUMBER_OF_CHARS_TO_MATCH_AND_CUT_SUFFIX, window.
  rewrite searchNonWhitespace_leading.
  pose proof (len_nonneg (leadingWhiteSpace line)) as Hl.
  rewrite slice_firstn by lia.
  replace (Z.to_nat (0 + len (leadingWhiteSpace line) + 15))
    with (length (leadingWhiteSpace line) + 15)%nat by (unfold len; lia).
  clear Hl. generalize (leading_trimStart line).
  generalize (leadingWhiteSpace line) (trimStart line). intros lw ts ->.
  rewrite firstn_app, firstn_all2 by lia.
  now replace (length lw + 15 - length lw)%nat with 15%nat by lia.
Qed.

(** [cur] is what [prefix] holds after its last line feed (all of it
    when it has none): the text of the cursor's line before the cursor. *)
Definition isCurrentLine (prefix cur : jsstring) : Prop :=
  ~ In 10%N cur /\ (prefix = cur \/ exists a, prefix = a ++ 10%N :: cur).

Lemma currentLine_slice (prefix : jsstring) :
  isCurrentLine prefix (slice prefix (lastIndexOf prefix NL + 1) None).
Proof.
  unfold lastIndexOf, NL.
  destruct (lastIndexOfFrom_newline prefix 0 (-1)) as [[Hno E] | (a & b & Hs & Hb & E)];
    rewrite E.
  - rewrite slice_suffix by (pose proof (len_nonneg prefix); lia).
    simpl. split; [exact Hno | now left].
  - replace (0 + len a + 1) with (len a + len [10%N]) by (unfold len; simpl; lia).
    destruct (slices_around prefix a [10%N] b Hs) as [_ ->].
    split; [exact Hb | right; now exists a].
Qed.

(** Line [j] of the insertion matches the suffix line [sl]: its window,
    for the first line after the text [cur] of the cursor's line, is
    not empty and starts the window of [sl]. *)
Definition lineMatches (sl cur : jsstring) (j : nat) (l : jsstring) : Prop :=
  let line := match j with O => cur ++ l | S _ => l end in
  window line <> [] /\ exists r, window sl = window line ++ r.

(** No line of [lines], the first of which is line [j], matches. *)
Definition noneMatches (sl cur : jsstring) (j : nat) (lines : list jsstring) : Prop :=
  forall k l, nth_error lines k = Some l -> ~ lineMatches sl cur (j + k) l.

(** The test of the second loop of [trimUntilSuffix]. *)
Definition loopTest (prefix suffixPart : jsstring) (i : Z) (l : jsstring) : bool :=
  let line :=
    if i =? 0 then slice prefix (lastIndexOf prefix NL + 1) None ++ l else l in
  let linePart :=
    getFirstNCharsPreservingLeadingSpaces line NUMBER_OF_CHARS_TO_MATCH_AND_CUT_SUFFIX in
  negb (len linePart =? 0) && startsWith suffixPart linePart.

Lemma loopTest_matches (prefix sl : jsstring) (j : nat) (l : jsstring) :
  loopTest prefix (window sl) (Z.of_nat j) l = true
  <-> lineMatches sl (slice prefix (lastIndexOf prefix NL + 1) None) j l.
Proof.
  unfold loopTest, lineMatches.
  replace (if Z.of_nat j =? 0
           then slice prefix (lastIndexOf prefix NL + 1) None ++ l else l)
    with (match j with
          | O => slice prefix (lastIndexOf prefix NL + 1) None ++ l
          | S _ => l
          end) by (now destruct j).
  cbv zeta. rewrite getFirstNChars_window.
  generalize (match j with
              | O => slice prefix (lastIndexOf prefix NL + 1) None ++ l
              | S _ => l
              end). intros line.
  rewrite andb_true_iff, negb_true_iff, Z.eqb_neq. split.
  - intros [Hne Hst]. split.
    + intros E. rewrite E in Hne. now apply Hne.
    + now apply startsWith_inv.
  - intros [Hne (r & Hr)]. split.
    + intros E. apply len_zero_nil in E. now apply Hne.
    + rewrite Hr. apply startsWith_app.
Qed.

Lemma findInsertionEnd_spec (prefix sl : jsstring) (lines : list jsstring)
    (j : nat) (total : Z) :
  let cur := slice prefix (lastIndexOf prefix NL + 1) None in
  (noneMatches sl cur j lines
   /\ findInsertionEnd prefix (window sl) lines (Z.of_nat j) total = total)
  \/ (exists before l after,
        lines = before ++ l :: after
        /\ noneMatches sl cur j before
        /\ lineMatches sl cur (j + length before) l
        /\ findInsertionEnd prefix (window sl) lines (Z.of_nat j) total
           = Z.of_nat (j + length before)).
Proof.
  intros cur. revert j. induction lines as [| l rest IH]; intros j.
  - left. split; [| reflexivity]. intros [| k] l'; discriminate.
  - change (findInsertionEnd prefix (window sl) (l :: rest) (Z.of_nat j) total)
      with (if loopTest prefix (window sl) (Z.of_nat j) l then Z.of_nat j
            else findInsertionEnd prefix (window sl) rest (Z.of_nat j + 1) total).
    destruct (loopTest prefix (window sl) (Z.of_nat j) l) eqn:E.
    + right. exists [], l, rest. rewrite Nat.add_0_r.
      split; [reflexivity |]. split; [intros [| k] l'; discriminate |].
      split; [now apply loopTest_matches | reflexivity].
    + assert (Hl : ~ lineMatches sl cur j l).
      { intros H. apply loopTest_matches in H. congruence. }
      replace (Z.of_nat j + 1) with (Z.of_nat (S j)) by lia.
      destruct (IH (S j)) as [[Hno Hr] | (before & l' & after & Hs & Hno & Hm & Hr)].
      * left. split; [| exact Hr]. intros [| k] l' Hk.
        -- injection Hk as <-. now rewrite Nat.add_0_r.
        -- replace (j + S k)%nat with (S j + k)%nat by lia. now apply Hno.
      * right. exists (l :: before), l', after.
        replace (j + length (l :: before))%nat with (S j + length before)%nat
          by (simpl; lia).
        split; [now rewrite Hs |]. split; [| split; [exact Hm | exact Hr]].
        intros [| k] l'' Hk.
        -- injection Hk as <-. now rewrite Nat.add_0_r.
        -- replace (j + S k)%nat with (S j + k)%nat by lia. now apply Hno.
Qed.

Lemma firstNonEmptyLine_spec (lines : list jsstring) :
  (Forall allWhiteSpace lines /\ firstNonEmptyLine lines = [])
  \/ (exists pre sl post,
        lines = pre ++ sl :: post /\ Forall allWhiteSpace pre
        /\ ~ allWhiteSpace sl /\ firstNonEmptyLine lines = sl).
Proof.
  induction lines as [| l rest IH]; simpl.
  - left. now split.
  - destruct (len (trim l) >? 0) eqn:E.
    + right. exists [], l, rest. split; [reflexivity |]. split; [constructor |].
      split; [now apply nonblank_test | reflexivity].
    + assert (Hl : allWhiteSpace l).
      { destruct (forallb isWhiteSpace l) eqn:F; [exact F |].
        assert (H : (len (trim l) >? 0) = true)
          by (apply nonblank_test; unfold allWhiteSpace; congruence).
        congruence. }
      destruct IH as [[Hall Hr] | (pre & sl & post & Hs & Hpre & Hsl & Hr)].
      * left. split; [now constructor | exact Hr].
      * right. exists (l :: pre), sl, post.
        split; [now rewrite Hs |]. split; [now constructor |]. now split.
Qed.

(** C7, as the code has it.  For all strings [insertion], [prefix] and
    [suffix]: the insertion is right-trimmed first; when every line of
    the suffix is blank the right-trimmed insertion is the answer;
    otherwise, with [sl] the first line of the suffix that is not
    blank and [cur] the text of the prefix after its last line feed,
    the answer is the lines of the right-trimmed insertion in front of
    the first line that matches [sl] (all of them when none does).  In
    particular the example of the source, with an empty prefix, is cut
    to ["pnpm-store"]. *)
Theorem trimUntilSuffix_spec (insertion prefix suffix : jsstring) :
  (let trimmedInsertion := trimEnd insertion in
   let result := trimUntilSuffix insertion prefix suffix in
   (Forall allWhiteSpace (split suffix NL) /\ result = trimmedInsertion)
   \/ (exists pre sl post cur,
         split suffix NL = pre ++ sl :: post
         /\ Forall allWhiteSpace pre /\ ~ allWhiteSpace sl
         /\ isCurrentLine prefix cur
         /\ ((noneMatches sl cur 0 (split trimmedInsertion NL)
              /\ result = trimmedInsertion)
             \/ (exists before l after,
                   split trimmedInsertion NL = before ++ l :: after
                   /\ noneMatches sl cur 0 before
                   /\ lineMatches sl cur (length before) l
                   /\ result = join NL before))))
  /\ trimUntilSuffix
       (lit "pnpm-store\n  key: ${{ runner.os }}-pnpm-${{ steps.pnpm-cache.outputs.STORE_PATH }}")
       []
       (lit "  key: ${{ runner.os }}-pnpm-store-${{ hashFiles('pnpm-lock.yaml') }}")
     = lit "pnpm-store".
Proof.
  split; [| vm_compute; reflexivity].
  cbv zeta. unfold trimUntilSuffix.
  destruct (firstNonEmptyLine_spec (split suffix NL))
    as [[Hall Hr] | (pre & sl & post & Hs & Hpre & Hsl & Hr)]; rewrite Hr.
  - left. now split.
  - right. exists pre, sl, post, (slice prefix (lastIndexOf prefix NL + 1) None).
    split; [exact Hs |]. split; [exact Hpre |]. split; [exact Hsl |].
    split; [apply currentLine_slice |].
    assert (Hne : (len sl =? 0) = false).
    { apply Z.eqb_neq. intros E. apply len_zero_nil in E.
      apply Hsl. rewrite E. reflexivity. }
    rewrite Hne, getFirstNChars_window.
    destruct (findInsertionEnd_spec prefix sl (split (trimEnd insertion) NL) 0
                (len (split (trimEnd insertion) NL)))
      as [[Hno E] | (before & l & after & Hl & Hno & Hm & E)];
      change (Z.of_nat 0) with 0 in E; rewrite E.
    + left. split; [exact Hno |].
      rewrite slice_all by lia. apply join_split_single.
    + right. exists before, l, after.
      split; [exact Hl |]. split; [exact Hno |]. split; [exact Hm |].
      rewrite slice_firstn by lia. rewrite Nat2Z.id, Hl. simpl Nat.add.
      rewrite firstn_app, Nat.sub_diag, firstn_all. simpl. now rewrite app_nil_r.
Qed.

(** *** [fixBadCompletionStart] *)

Section BadCompletionStartFacts.

Variable EP : N -> bool.

(** One thing the group of [BAD_COMPLETION_START] matches: a code
    point with [Emoji_Presentation] (one code unit, or a surrogate
    pair), a zero-width space, or a plus, a minus or a full stop
    followed by a space. *)
Inductive badItem : jsstring -> Prop :=
  | item_emoji (c : N) : EP c = true -> badItem [c]
  | item_emoji_pair (hi lo : N) :
      isHighSurrogate hi = true -> isLowSurrogate lo = true ->
      EP (codePoint hi lo) = true -> badItem [hi; lo]
  | item_zero_width_space : badItem [8203%N]
  | item_plus : badItem [43%N; 32%N]
  | item_minus : badItem [45%N; 32%N]
  | item_full_stop : badItem [46%N; 32%N].

(** A run of one or more such things. *)
Inductive badRun : jsstring -> Prop :=
  | run_one (i : jsstring) : badItem i -> badRun i
  | run_more (i r : jsstring) : badItem i -> badRun r -> badRun (i ++ r).

(** [s] is a run, then white space, then [rest], which does not start
    with white space. *)
Definition startsBadly (s rest : jsstring) : Prop :=
  exists r w, s = r ++ w ++ rest /\ badRun r /\ w <> [] /\ allWhiteSpace w
              /\ trimStart rest = rest.

(** What the pattern does after an iteration of its group. *)
Definition afterItem (s : jsstring) : option jsstring :=
  orElse (matchBadStart EP s) (matchSpaces s).

Lemma trimStart_idempotent (s : jsstring) : trimStart (trimStart s) = trimStart s.
Proof.
  induction s as [| c s IH]; simpl; [reflexivity |].
  destruct (isWhiteSpace c) eqn:E; [exact IH |]. simpl. now rewrite E.
Qed.

Lemma trimStart_app_white (w rest : jsstring) :
  allWhiteSpace w -> trimStart (w ++ rest) = trimStart rest.
Proof.
  unfold allWhiteSpace. induction w as [| c w IH]; simpl; [reflexivity |].
  intros H. apply andb_true_iff in H as [-> H]. now apply IH.
Qed.

Lemma leadingWhiteSpace_all (s : jsstring) : allWhiteSpace (leadingWhiteSpace s).
Proof.
  unfold allWhiteSpace. induction s as [| c s IH]; simpl; [reflexivity |].
  destruct (isWhiteSpace c) eqn:E; simpl; [now rewrite E | reflexivity].
Qed.

Lemma matchSpaces_inv (s rest : jsstring) :
  matchSpaces s = Some rest ->
  exists w, s = w ++ rest /\ w <> [] /\ allWhiteSpace w /\ trimStart rest = rest.
Proof.
  destruct s as [| c s]; simpl; [discriminate |].
  destruct (isWhiteSpace c) eqn:E; [| discriminate].
  intros H. injection H as <-.
  exists (c :: leadingWhiteSpace s). split; [| split; [| split]].
  - simpl. f_equal. apply leading_trimStart.
  - discriminate.
  - unfold allWhiteSpace. simpl. rewrite E. apply leadingWhiteSpace_all.
  - apply trimStart_idempotent.
Qed.

Lemma afterItem_nil : afterItem [] = None.
Proof. reflexivity. Qed.

Lemma matchBadStart_one (c1 : N) : matchBadStart EP [c1] = None.
Proof. simpl. now destruct (EP c1), (c1 =? 8203)%N. Qed.

Lemma matchBadStart_two (c1 c2 : N) (s2 : jsstring) :
  matchBadStart EP (c1 :: c2 :: s2) =
  orElse (if isHighSurrogate c1 && isLowSurrogate c2
          then if EP (codePoint c1 c2) then afterItem s2 else None
          else if EP c1 then afterItem (c2 :: s2) else None)
 (orElse (if (c1 =? 8203)%N then afterItem (c2 :: s2) else None)
 (orElse (if (c1 =? 43)%N && (c2 =? 32)%N then afterItem s2 else None)
 (orElse (if (c1 =? 45)%N && (c2 =? 32)%N then afterItem s2 else None)
         (if (c1 =? 46)%N && (c2 =? 32)%N then afterItem s2 else None)))).
Proof. reflexivity. Qed.

Ltac eqb_facts :=
  repeat match goal with
         | H : (_ && _) = true |- _ => apply andb_true_iff in H as [? ?]
         | H : (_ =? _)%N = true |- _ => apply N.eqb_eq in H
         end;
  subst.

Ltac pick_item :=
  match goal with
  | |- exists i t, ?x :: ?y :: ?z = i ++ t /\ _ =>
      first
        [ exists [x], (y :: z); split; [reflexivity |]; split;
          [first [apply item_emoji; assumption | apply item_zero_width_space]
          | congruence]
        | exists [x; y], z; split; [reflexivity |]; split;
          [first [apply item_emoji_pair; assumption | apply item_plus
                 | apply item_minus | apply item_full_stop]
          | congruence] ]
  end.

(** A successful match starts with one item, and goes on from there. *)
Lemma matchBadStart_item (s rest : jsstring) :
  matchBadStart EP s = Some rest ->
  exists i t, s = i ++ t /\ badItem i /\ afterItem t = Some rest.
Proof.
  destruct s as [| c1 s1]; [discriminate |].
  destruct s1 as [| c2 s2]; [rewrite matchBadStart_one; discriminate |].
  rewrite matchBadStart_two.
  remember (afterItem s2) as a2 eqn:A2.
  remember (afterItem (c2 :: s2)) as a1 eqn:A1.
  intros H.
  destruct (isHighSurrogate c1 && isLowSurrogate c2) eqn:S;
    destruct (EP (codePoint c1 c2)) eqn:E12;
    destruct (EP c1) eqn:E1;
    destruct (c1 =? 8203)%N eqn:Z1;
    destruct ((c1 =? 43)%N && (c2 =? 32)%N) eqn:P1;
    destruct ((c1 =? 45)%N && (c2 =? 32)%N) eqn:P2;
    destruct ((c1 =? 46)%N && (c2 =? 32)%N) eqn:P3;
    destruct a1 as [x1 |]; destruct a2 as [x2 |];
    cbn [orElse] in H; try discriminate H;
    injection H as <-; eqb_facts; try discriminate; pick_item.
Qed.

Lemma badItem_length (i : jsstring) : badItem i -> (1 <= length i)%nat.
Proof. intros []; simpl; lia. Qed.

(** Whatever the table, a match is a run followed by white space. *)
Lemma matchBadStart_sound (n : nat) :
  forall s rest, (length s <= n)%nat ->
    matchBadStart EP s = Some rest -> startsBadly s rest.
Proof.
  induction n as [| n IH]; intros s rest Hlen H.
  - destruct s; [discriminate | simpl in Hlen; lia].
  - destruct (matchBadStart_item s rest H) as (i & t & -> & Hi & Ht).
    pose proof (badItem_length i Hi) as Hil. rewrite length_app in Hlen.
    unfold afterItem in Ht. destruct (matchBadStart EP t) as [x |] eqn:Hm.
    + cbn [orElse] in Ht. injection Ht as ->.
      destruct (IH t rest ltac:(lia) Hm) as (r & w & -> & Hr & Hw).
      exists (i ++ r), w. split; [now rewrite <- app_assoc |].
      split; [now apply run_more | exact Hw].
    + cbn [orElse] in Ht.
      destruct (matchSpaces_inv t rest Ht) as (w & -> & Hw).
      exists i, w. split; [reflexivity |]. split; [now apply run_one | exact Hw].
Qed.

(** What is known of the [Emoji_Presentation] table: it holds of no
    ASCII character, of no white space and of no surrogate. *)
Hypothesis EP_not_ascii : forall c, (c <? 128)%N = true -> EP c = false.
Hypothesis EP_not_space : forall c, isWhiteSpace c = true -> EP c = false.
Hypothesis EP_not_surrogate : forall c, isHighSurrogate c = true -> EP c = false.

Lemma white_facts (c : N) :
  isWhiteSpace c = true ->
  isHighSurrogate c = false /\ (c =? 8203)%N = false /\ (c =? 43)%N = false
  /\ (c =? 45)%N = false /\ (c =? 46)%N = false.
Proof.
  unfold isWhiteSpace, isHighSurrogate. intros H.
  repeat rewrite ?orb_true_iff, ?andb_true_iff, ?N.leb_le, ?N.eqb_eq in H.
  repeat rewrite ?andb_false_iff, ?N.leb_gt, ?N.eqb_neq.
  repeat split; lia.
Qed.

Lemma afterItem_white (w rest : jsstring) :
  w <> [] -> allWhiteSpace w -> trimStart rest = rest ->
  afterItem (w ++ rest) = Some rest.
Proof.
  intros Hne Hw Hrest. destruct w as [| c w]; [contradiction |].
  unfold allWhiteSpace in Hw. simpl in Hw. apply andb_true_iff in Hw as [Hc Hw].
  destruct (white_facts c Hc) as (F1 & F2 & F3 & F4 & F5).
  assert (Hm : matchBadStart EP ((c :: w) ++ rest) = None).
  { simpl app. destruct (w ++ rest) as [| c2 s2]; [apply matchBadStart_one |].
    rewrite matchBadStart_two, F1, F2, F3, F4, F5, (EP_not_space c Hc).
    reflexivity. }
  unfold afterItem. rewrite Hm. simpl. rewrite Hc.
  now rewrite trimStart_app_white, Hrest.
Qed.

Lemma matchBadStart_step (i t rest : jsstring) :
  badItem i -> afterItem t = Some rest -> matchBadStart EP (i ++ t) = Some rest.
Proof.
  intros Hi Ht. destruct Hi as [c Hc | hi lo Hhi Hlo Hcp | | | |]; simpl app.
  - destruct t as [| c2 s2]; [discriminate |].
    rewrite matchBadStart_two, Ht, Hc.
    destruct (isHighSurrogate c) eqn:S;
      [apply EP_not_surrogate in S; congruence | reflexivity].
  - now rewrite matchBadStart_two, Hhi, Hlo, Hcp, Ht.
  - destruct t as [| c2 s2]; [discriminate |].
    rewrite matchBadStart_two, Ht. simpl. now destruct (EP 8203%N).
  - rewrite matchBadStart_two, Ht, (EP_not_ascii 43%N) by reflexivity. reflexivity.
  - rewrite matchBadStart_two, Ht, (EP_not_ascii 45%N) by reflexivity. reflexivity.
  - rewrite matchBadStart_two, Ht, (EP_not_ascii 46%N) by reflexivity. reflexivity.
Qed.

(** With such a table the match takes the whole run and all the white
    space after it. *)
Lemma matchBadStart_complete (r w rest : jsstring) :
  badRun r -> w <> [] -> allWhiteSpace w -> trimStart rest = rest ->
  matchBadStart EP (r ++ w ++ rest) = Some rest.
Proof.
  intros Hr Hne Hw Hrest. induction Hr as [i Hi | i r Hi Hr IH].
  - apply matchBadStart_step; [exact Hi | now apply afterItem_white].
  - rewrite <- app_assoc. apply matchBadStart_step; [exact Hi |].
    unfold afterItem. now rewrite IH.
Qed.

(** C8. For every completion that begins with a run of one or more of
    an emoji-presentation character, a zero-width space, ["+ "], ["- "]
    and [". "], followed by white space, [fixBadCompletionStart]
    removes the run and the white space after it, so that the heavy
    plus sign, five spaces and ["1"] become ["1"]; every other
    completion is returned as it is, as is ["normal code"]. *)
Theorem fixBadCompletionStart_spec :
  (forall r w rest,
     badRun r -> w <> [] -> allWhiteSpace w -> trimStart rest = rest ->
     fixBadCompletionStart EP (r ++ w ++ rest) = rest)
  /\ (forall s,
        (forall r w rest, s = r ++ w ++ rest -> badRun r -> allWhiteSpace w -> w = []) ->
        fixBadCompletionStart EP s = s)
  /\ (EP 10133%N = true ->
      fixBadCompletionStart EP (10133%N :: lit "     1") = lit "1")
  /\ fixBadCompletionStart EP (lit "normal code") = lit "normal code".
Proof.
  assert (Hrun : forall r w rest,
             badRun r -> w <> [] -> allWhiteSpace w -> trimStart rest = rest ->
             fixBadCompletionStart EP (r ++ w ++ rest) = rest).
  { intros r w rest Hr Hne Hw Hrest.
    unfold fixBadCompletionStart, testBadStart, replaceBadStart.
    now rewrite (matchBadStart_complete r w rest Hr Hne Hw Hrest). }
  split; [exact Hrun |]. split; [| split].
  - intros s Hnone. unfold fixBadCompletionStart, testBadStart.
    destruct (matchBadStart EP s) as [rest |] eqn:Hm; [| reflexivity].
    destruct (matchBadStart_sound (length s) s rest (le_n _) Hm)
      as (r & w & Hs & Hr & Hne & Hw & _).
    contradiction Hne. exact (Hnone r w rest Hs Hr Hw).
  - intros Hplus.
    apply (Hrun [10133%N] (lit "     ") (lit "1")).
    + apply run_one. now apply item_emoji.
    + discriminate.
    + reflexivity.
    + reflexivity.
  - unfold fixBadCompletionStart, testBadStart.
    change (lit "normal code") with (110%N :: 111%N :: lit "rmal code").
    rewrite matchBadStart_two, (EP_not_ascii 110%N) by reflexivity.
    reflexivity.
Qed.

End BadCompletionStartFacts.

(** A fragment of the [Emoji_Presentation] table: the heavy plus,
    minus and division signs. *)
Definition heavySigns (c : N) : bool := ((10133 <=? c) && (c <=? 10135))%N.

(** The statement applies with that table. *)
Lemma fixBadCompletionStart_spec_witness :
  heavySigns 10133%N = true
  /\ fixBadCompletionStart heavySigns (10133%N :: lit "     1") = lit "1".
Proof.
  split; [reflexivity |].
  refine (proj1 (proj2 (proj2 (fixBadCompletionStart_spec heavySigns _ _ _))) _).
  - intros c H. unfold heavySigns. apply N.ltb_lt in H.
    apply andb_false_iff. left. apply N.leb_gt. lia.
  - intros c H. destruct (heavySigns c) eqn:E; [| reflexivity].
    unfold heavySigns in E. apply andb_true_iff in E as [E1 E2].
    apply N.leb_le in E1, E2.
    assert (Hc : c = 10133%N \/ c = 10134%N \/ c = 10135%N) by lia.
    destruct Hc as [-> | [-> | ->]]; discriminate H.
  - intros c H. unfold heavySigns, isHighSurrogate in *.
    apply andb_true_iff in H as [H1 H2]. apply N.leb_le in H1, H2.
    apply andb_false_iff. right. apply N.leb_gt. lia.
  - reflexivity.
Defined.

(** *** The cases of the test suite *)

Example bad_completion_starts :
  map (fixBadCompletionStart heavySigns)
    [10133%N :: lit "     1"; 8203%N :: lit "   1"; lit ".      1"; lit "+  1";
     lit "-  1"; lit "+ 1"; lit "    indented"]
  = [lit "1"; lit "1"; lit "1"; lit "1"; lit "1"; lit "+ 1"; lit "    indented"].
Proof. vm_compute. reflexivity. Qed.

Example stops_when_the_next_line_of_the_suffix_matches :
  trimUntilSuffix
    (lit "console.log('one')\n    console.log('two')\n    console.log('three')\n    console.log('four')\n}")
    (lit "function myFunction() {\n    ")
    (lit "\n    console.log('three')\n}\n")
  = lit "console.log('one')\n    console.log('two')".
Proof. vm_compute. reflexivity. Qed.

Example stops_when_the_next_line_of_the_suffix_matches_partially :
  trimUntilSuffix
    (lit "pnpm-store\n    key: {{ runner.os }}-pnpm-{{ steps.pnpm-cache.outputs.STORE_PATH }}\n}")
    (lit "path: $GITHUB_WORKSPACE/vscode/.vscod-etest/")
    (lit "\n    key: {{ runner.os }}-pnpm-store-{{ hashFiles('**/pnpm-lock.yaml') }}\n                ")
  = lit "pnpm-store".
Proof. vm_compute. reflexivity. Qed.

Example extract_keeps_leading_white_space :
  extractFromCodeBlock (lit "\n    return 1  \n</CODE5711> and so on") = lit "\n    return 1"
  /\ extractFromCodeBlock (lit "<CODE5711>return 1</CODE5711>") = [].
Proof. split; vm_compute; reflexivity. Qed.

End TextProcessingFacts.

(** ** The completion pipeline *)

Module CompletionsFacts.
Import JS JSFacts TextProcessing TextProcessingFacts Completions.

(** *** Ranking and deduplication *)

Lemma eqString_eq (a b : jsstring) : eqString a b = true <-> a = b.
Proof.
  revert b. induction a as [| x a IH]; intros [| y b]; simpl;
    try (split; [discriminate | discriminate]); [now split |].
  rewrite andb_true_iff, N.eqb_eq, IH. split.
  - now intros [-> ->].
  - intros E. injection E as -> ->. now split.
Qed.

(** [a] comes before [b] in a ranking: it has at least as many lines. *)
Definition ranksBefore (a b : jsstring) : Prop :=
  numberOfLines b <= numberOfLines a.

(** The candidates of a list that have [n] lines, in the order of the
    list. *)
Definition withLines (n : Z) (candidates : list jsstring) : list jsstring :=
  filter (fun c => numberOfLines c =? n) candidates.

Lemma insertByLines_In (c x : jsstring) (l : list jsstring) :
  In x (insertByLines c l) -> x = c \/ In x l.
Proof.
  induction l as [| d l IH]; simpl.
  - intros [-> | []]. now left.
  - destruct (numberOfLines d >? numberOfLines c).
    + intros [-> | H]; [right; now left |].
      destruct (IH H) as [-> | H']; [now left | right; now right].
    + intros [-> | H]; [now left | now right].
Qed.

Lemma insertByLines_sorted (c : jsstring) (l : list jsstring) :
  StronglySorted ranksBefore l -> StronglySorted ranksBefore (insertByLines c l).
Proof.
  induction l as [| d l IH]; intros Hs; simpl.
  - constructor; constructor.
  - destruct (numberOfLines d >? numberOfLines c) eqn:E.
    + apply StronglySorted_inv in Hs as [Hl Hd].
      constructor; [now apply IH |].
      apply Forall_forall. intros x Hx.
      destruct (insertByLines_In _ _ _ Hx) as [-> | Hx'].
      * unfold ranksBefore. apply Z.gtb_lt in E. lia.
      * rewrite Forall_forall in Hd. now apply Hd.
    + constructor; [exact Hs |].
      assert (Hcd : ranksBefore c d).
      { unfold ranksBefore. destruct (Z.gtb_spec (numberOfLines d) (numberOfLines c));
          [discriminate | lia]. }
      constructor; [exact Hcd |].
      apply StronglySorted_inv in Hs as [_ Hd].
      eapply Forall_impl; [| exact Hd]. unfold ranksBefore in *. intros; lia.
Qed.

Lemma rank_sorted (cs : list jsstring) : StronglySorted ranksBefore (rank cs).
Proof.
  induction cs as [| c cs IH]; simpl; [constructor | now apply insertByLines_sorted].
Qed.

Lemma filter_sorted (f : jsstring -> bool) (l : list jsstring) :
  StronglySorted ranksBefore l -> StronglySorted ranksBefore (filter f l).
Proof.
  induction l as [| x l IH]; intros Hs; simpl; [constructor |].
  apply StronglySorted_inv in Hs as [Hl Hx].
  destruct (f x); [| now apply IH].
  constructor; [now apply IH |].
  apply Forall_forall. intros y Hy. apply filter_In in Hy as [Hy _].
  rewrite Forall_forall in Hx. now apply Hx.
Qed.

Lemma dedupe_In (x : jsstring) (l : list jsstring) : In x (dedupe l) -> In x l.
Proof.
  induction l as [| c l IH]; simpl; [easy |].
  intros [-> | H]; [now left |].
  apply filter_In in H as [H _]. right. now apply IH.
Qed.

Lemma dedupe_sorted (l : list jsstring) :
  StronglySorted ranksBefore l -> StronglySorted ranksBefore (dedupe l).
Proof.
  induction l as [| c l IH]; intros Hs; simpl; [constructor |].
  apply StronglySorted_inv in Hs as [Hl Hc].
  constructor; [apply filter_sorted; now apply IH |].
  apply Forall_forall. intros y Hy. apply filter_In in Hy as [Hy _].
  apply dedupe_In in Hy. rewrite Forall_forall in Hc. now apply Hc.
Qed.

Lemma withLines_insert (n : Z) (c : jsstring) (l : list jsstring) :
  withLines n (insertByLines c l) = withLines n (c :: l).
Proof.
  unfold withLines. induction l as [| d l IH]; [reflexivity |].
  cbn [insertByLines]. destruct (numberOfLines d >? numberOfLines c) eqn:E;
    [| reflexivity].
  apply Z.gtb_lt in E. cbn [filter] in *. rewrite IH.
  destruct (numberOfLines c =? n) eqn:Ec; [| reflexivity].
  apply Z.eqb_eq in Ec.
  replace (numberOfLines d =? n) with false by (symmetry; apply Z.eqb_neq; lia).
  reflexivity.
Qed.

Lemma withLines_rank (n : Z) (cs : list jsstring) :
  withLines n (rank cs) = withLines n cs.
Proof.
  induction cs as [| c cs IH]; [reflexivity |].
  cbn [rank]. rewrite withLines_insert. unfold withLines in *. cbn [filter].
  now rewrite IH.
Qed.

Lemma filter_filter_comm {A : Type} (f g : A -> bool) (l : list A) :
  filter f (filter g l) = filter g (filter f l).
Proof.
  induction l as [| x l IH]; [reflexivity |]. simpl.
  destruct (f x) eqn:F, (g x) eqn:G; simpl; rewrite ?F, ?G, IH; reflexivity.
Qed.

Lemma filter_absorbs (p : jsstring -> bool) (c : jsstring) (l : list jsstring) :
  p c = false ->
  filter p (filter (fun d => negb (eqString c d)) l) = filter p l.
Proof.
  intros Hc. induction l as [| x l IH]; [reflexivity |]. simpl.
  destruct (eqString c x) eqn:E; simpl.
  - apply eqString_eq in E. subst x. now rewrite Hc.
  - now rewrite IH.
Qed.

Lemma filter_dedupe (p : jsstring -> bool) (l : list jsstring) :
  filter p (dedupe l) = dedupe (filter p l).
Proof.
  induction l as [| c l IH]; [reflexivity |].
  cbn [dedupe filter]. destruct (p c) eqn:Hc.
  - cbn [dedupe]. f_equal. now rewrite filter_filter_comm, IH.
  - now rewrite filter_absorbs.
Qed.

(** C9. For every list of surviving candidates the list returned is
    in descending order of number of lines, and the candidates with a
    given number of lines come in their original order (of identical
    texts the first only); three distinct candidates of 1, 5 and 1
    lines come out as the 5-line one and then the two 1-line ones in
    their original order. *)
Theorem aggregate_ranked (survivors : list jsstring) :
  StronglySorted ranksBefore (aggregate survivors)
  /\ (forall n, withLines n (aggregate survivors) = dedupe (withLines n survivors))
  /\ aggregate [lit "first()"; lit "a()\nb()\nc()\nd()\ne()"; lit "third()"]
     = [lit "a()\nb()\nc()\nd()\ne()"; lit "first()"; lit "third()"].
Proof.
  split; [| split].
  - unfold aggregate. apply dedupe_sorted, rank_sorted.
  - intros n. unfold aggregate, withLines.
    rewrite filter_dedupe. f_equal. apply withLines_rank.
  - vm_compute. reflexivity.
Qed.

(** *** Multi-line truncation *)

Section TruncationFacts.

Variable tabWidth : Z.
Variable isContinuation : jsstring -> bool.
Variable retainsClosingBracket : list jsstring -> jsstring -> bool.
Variable startIndentation : Z.
Variable startLineBlank : bool.

Local Abbreviation walk :=
  (walk tabWidth isContinuation retainsClosingBracket startIndentation startLineBlank).
Local Abbreviation truncateMultiline :=
  (truncateMultiline tabWidth isContinuation retainsClosingBracket startIndentation
     startLineBlank).











End TruncationFacts.





(** *** Cache synthesis *)










(** Settings in the manner of the test suite: eager triggering, three
    requests in multi-line mode, the closing bracket already in the
    file. *)
Definition testSettings : Settings :=
  {| Emoji_Presentation := fun c => (c =? 10133)%N;
     tabWidth := 4;
     isContinuation := fun _ => braceElse;
     retainsClosingBracket := fun _ _ _ => false;
     triggerMoreEagerly := true;
     midIdentifier := fun _ => false;
     onlyClosingTags := fun _ => false;
     multilineEligible := fun _ => true;
     multilineRequests := 3;
     capacity := 10 |}.




(** The suppression of 8: a trigger that carries a selected completion
    of the suggestion widget makes no request, whatever the cache
    holds and whatever the client would do. *)
Lemma selected_completion_makes_no_request
    (cfg : Settings) (client : CompletionParameters -> Outcome)
    (cache : CompletionsCache) (t : Trigger) (info : jsstring) :
  selectedCompletionInfo t = Some info ->
  snd (fst (provideInlineCompletionItems cfg client cache t)) = [].
Proof.
  intros Hsel. unfold provideInlineCompletionItems.
  destruct (get cache (prefix t) (suffix t)); [reflexivity |].
  unfold rejects. now rewrite Hsel.
Qed.

(** *** Failing requests *)

(** What a branch adds to the candidates. *)
Definition contribution (cfg : Settings) (client : CompletionParameters -> Outcome)
    (t : Trigger) (p : CompletionParameters) : list jsstring :=
  match client p with
  | Resolved completion => process cfg t (multiline p) completion
  | Threw => []
  | Stalled => []
  end.

Section Failures.

Variable cfg : Settings.
Variable client : CompletionParameters -> Outcome.
Variable t : Trigger.

Lemma joinAll_not_thrown (requests : list CompletionParameters) :
  joinAll (map (fun p => recover (requestBranch cfg client t p)) requests) <> Thrown.
Proof.
  induction requests as [| p requests IH]; simpl; [discriminate |].
  unfold requestBranch at 1.
  destruct (client p); simpl;
    destruct (joinAll (map (fun p => recover (requestBranch cfg client t p)) requests));
    try discriminate; now contradiction IH.
Qed.

Lemma joinAll_settled (requests : list CompletionParameters) :
  (forall p, In p requests -> client p <> Stalled) ->
  joinAll (map (fun p => recover (requestBranch cfg client t p)) requests)
  = Ok (flat_map (contribution cfg client t) requests).
Proof.
  induction requests as [| p requests IH]; intros Hall; [reflexivity |].
  cbn [map joinAll flat_map].
  rewrite IH by (intros q Hq; apply Hall; now right).
  assert (Hp : client p <> Stalled) by (apply Hall; now left).
  unfold requestBranch, contribution.
  destruct (client p); [reflexivity | reflexivity | now contradiction Hp].
Qed.

Lemma all_thrown_nothing (requests : list CompletionParameters) :
  (forall p, In p requests -> client p = Threw) ->
  flat_map (contribution cfg client t) requests = [].
Proof.
  induction requests as [| p requests IH]; intros Hall; [reflexivity |].
  cbn [flat_map]. rewrite IH by (intros q Hq; apply Hall; now right).
  unfold contribution. now rewrite (Hall p (or_introl eq_refl)).
Qed.

End Failures.

(** C3. For every trigger the entry point does not throw.  When the
    trigger is not rejected, the cache has nothing for it and every
    request settles, the candidates returned are those of the
    branches that resolved, a branch that threw adding none; when
    every branch throws, the result is empty. *)
Theorem failing_branches (cfg : Settings) (client : CompletionParameters -> Outcome)
    (cache : CompletionsCache) (t : Trigger) :
  fst (fst (provideInlineCompletionItems cfg client cache t)) <> Thrown
  /\ (rejects cfg t = false -> get cache (prefix t) (suffix t) = None ->
      (forall p, In p (requestsFor cfg t) -> client p <> Stalled) ->
      fst (fst (provideInlineCompletionItems cfg client cache t))
      = Ok (aggregate (flat_map (contribution cfg client t) (requestsFor cfg t))))
  /\ (forall p, client p = Threw -> contribution cfg client t p = [])
  /\ (rejects cfg t = false -> get cache (prefix t) (suffix t) = None ->
      (forall p, In p (requestsFor cfg t) -> client p = Threw) ->
      fst (fst (provideInlineCompletionItems cfg client cache t)) = Ok []).
Proof.
  split; [| split; [| split]].
  - unfold provideInlineCompletionItems.
    destruct (get cache (prefix t) (suffix t)); [discriminate |].
    destruct (rejects cfg t); [discriminate |].
    pose proof (joinAll_not_thrown cfg client t (requestsFor cfg t)) as H.
    destruct (joinAll _); simpl; [discriminate | now contradiction H | discriminate].
  - intros Hrej Hget Hall. unfold provideInlineCompletionItems.
    rewrite Hget, Hrej, (joinAll_settled cfg client t _ Hall). reflexivity.
  - intros p Hp. unfold contribution. now rewrite Hp.
  - intros Hrej Hget Hall. unfold provideInlineCompletionItems.
    rewrite Hget, Hrej.
    rewrite joinAll_settled by (intros p Hp; rewrite (Hall p Hp); discriminate).
    now rewrite all_thrown_nothing.
Qed.

(** A client whose second request alone resolves. *)
Definition secondOnly (p : CompletionParameters) : Outcome :=
  match sampling p with
  | 1%nat => Resolved (lit "return 1")
  | _ => Threw
  end.

Definition blockTrigger : Trigger :=
  {| languageId := lit "typescript"; prefix := lit "function f() {\n    ";
     suffix := []; explicitInvoke := false; selectedCompletionInfo := None |}.

(** The statement applies: of three branches two throw, and the
    candidate of the third is returned. *)
Lemma failing_branches_witness :
  map secondOnly (requestsFor testSettings blockTrigger)
  = [Threw; Resolved (lit "return 1"); Threw]
  /\ fst (fst (provideInlineCompletionItems testSettings secondOnly [] blockTrigger))
     = Ok [lit "return 1"].
Proof.
  split; [reflexivity |].
  refine (proj1 (proj2 (failing_branches testSettings secondOnly [] blockTrigger)) _ _ _).
  - reflexivity.
  - reflexivity.
  - intros p Hp. unfold secondOnly. destruct (sampling p) as [| [| k]]; discriminate.
Defined.

(** *** The cases of the test suite *)

(** The client of the test helper: the requests get the responses in
    order, and an empty completion once these run out. *)
Definition respondInOrder (responses : list jsstring) (p : CompletionParameters) : Outcome :=
  match nth_error responses (sampling p) with
  | Some completion => Resolved completion
  | None => Resolved []
  end.

Definition triggerAt (before after : jsstring) : Trigger :=
  {| languageId := lit "typescript"; prefix := before; suffix := after;
     explicitInvoke := false; selectedCompletionInfo := None |}.

Definition completions (before after : jsstring) (responses : list jsstring)
    : Attempt (list jsstring) :=
  fst (fst (provideInlineCompletionItems testSettings (respondInOrder responses) []
              (triggerAt before after))).

Example skips_over_else_blocks :
  completions (lit "if (check) {\n    ") (lit "\n}")
    [lit "console.log('one')\n} else {\n    console.log('two')\n}"]
  = Ok [lit "console.log('one')\n} else {\n    console.log('two')"].
Proof. vm_compute. reflexivity. Qed.

Example uses_an_indentation_based_approach :
  completions (lit "class Foo {\n    constructor() {\n        ") (lit "\n    }\n}")
    [lit "console.log('foo')\n    }\n\n    add() {\n        console.log('bar')\n    }";
     lit "if (foo) {\n            console.log('foo1');\n        }\n    }\n\n    add() {\n        console.log('bar')\n    }"]
  = Ok [lit "if (foo) {\n            console.log('foo1');\n        }";
        lit "console.log('foo')"].
Proof. vm_compute. reflexivity. Qed.

Example skips_over_empty_lines :
  completions (lit "class Foo {\n    constructor() {\n        ") (lit "\n    }\n}")
    [lit "console.log('foo')\n\n        console.log('bar')\n\n        console.log('baz')"]
  = Ok [lit "console.log('foo')\n\n        console.log('bar')\n\n        console.log('baz')"].
Proof. vm_compute. reflexivity. Qed.

Example ranks_results_by_number_of_lines :
  completions (lit "function test() {\n    ") []
    [lit "console.log('foo')\n    console.log('foo')\n";
     lit "console.log('foo')\n    console.log('foo')\n    console.log('foo')\n    console.log('foo')\n    console.log('foo')";
     lit "console.log('foo')\n"]
  = Ok [lit "console.log('foo')\n    console.log('foo')\n    console.log('foo')\n    console.log('foo')\n    console.log('foo')";
        lit "console.log('foo')\n    console.log('foo')";
        lit "console.log('foo')"].
Proof. vm_compute. reflexivity. Qed.

Example dedupes_duplicate_results :
  completions (lit "function test() {\n    ") []
    [lit "return true"; lit "return true"; lit "return true"]
  = Ok [lit "return true"].
Proof. vm_compute. reflexivity. Qed.

Example does_not_make_a_request_when_context_has_a_selectedCompletionInfo :
  provideInlineCompletionItems testSettings (respondInOrder []) []
    {| languageId := lit "typescript"; prefix := lit "foo = "; suffix := [];
       explicitInvoke := true; selectedCompletionInfo := Some (lit "something") |}
  = (Ok [], [], []).
Proof. vm_compute. reflexivity. Qed.

Example synthesizes_a_completion_from_a_prior_request :
  let '(_, _, cache) :=
    provideInlineCompletionItems testSettings
      (respondInOrder [lit "log('Hello, world!');"]) [] (triggerAt (lit "console.") []) in
  provideInlineCompletionItems testSettings (fun _ => Stalled) cache
    (triggerAt (lit "console.log(") [])
  = (Ok [lit "'Hello, world!');"], [], cache).
Proof. vm_compute. reflexivity. Qed.

End CompletionsFacts.

(** * The rest of [text-processing.ts] *)

Module TextProcessingMore.
Import JS JSFacts TextProcessing TextProcessingFacts.

(** ** [trimLeadingWhitespaceUntilNewline]

    [str.replace(/^\s+?(\r?\n)/, '$1')].  The group [(\r?\n)] at the
    start of [s]: what it matches and what follows. *)
Definition matchLineBreak (s : jsstring) : option (jsstring * jsstring) :=
  match s with
  | [] => None
  | c1 :: s1 =>
      match s1 with
      | [] => if (c1 =? 10)%N then Some ([10%N], s1) else None
      | c2 :: s2 =>
          if (c1 =? 13)%N && (c2 =? 10)%N then Some ([13%N; 10%N], s2)
          else if (c1 =? 10)%N then Some ([10%N], s1)
          else None
      end
  end.

(** [\s+?] once it has taken a first white space: it is lazy, the
    group is tried before one more white space is taken. *)
Fixpoint lazySpacesThenBreak (s : jsstring) : option (jsstring * jsstring) :=
  match matchLineBreak s with
  | Some m => Some m
  | None =>
      match s with
      | [] => None
      | c :: s' => if isWhiteSpace c then lazySpacesThenBreak s' else None
      end
  end.

(** The match of [/^\s+?(\r?\n)/]: the group and what follows it. *)
Definition matchLeadingWhitespace (str : jsstring) : option (jsstring * jsstring) :=
  match str with
  | [] => None
  | c :: s' => if isWhiteSpace c then lazySpacesThenBreak s' else None
  end.

Definition trimLeadingWhitespaceUntilNewline (str : jsstring) : jsstring :=
  match matchLeadingWhitespace str with
  | Some (lineBreak, rest) => lineBreak ++ rest
  | None => str
  end.

(** ** [trimEndOnLastLineIfWhitespaceOnly]

    [text.replace(/(\r?\n)\s+$/, '$1')].  [\s+$] at the start of [s]:
    white space, at least one, up to the end of the text. *)
Definition spacesToEnd (s : jsstring) : bool :=
  negb (len s =? 0) && forallb isWhiteSpace s.

(** The match of [(\r?\n)\s+$] at the start of [s]: its group. *)
Definition matchBreakThenSpaces (s : jsstring) : option jsstring :=
  match s with
  | [] => None
  | c1 :: s1 =>
      match s1 with
      | [] => None
      | c2 :: s2 =>
          if (c1 =? 13)%N && (c2 =? 10)%N && spacesToEnd s2 then Some [13%N; 10%N]
          else if (c1 =? 10)%N && spacesToEnd s1 then Some [10%N]
          else None
      end
  end.

(** The replacement at the leftmost match: the text before it and the
    group; a text without a match is left as it is. *)
Fixpoint trimEndOnLastLineIfWhitespaceOnly (text : jsstring) : jsstring :=
  match matchBreakThenSpaces text with
  | Some lineBreak => lineBreak
  | None =>
      match text with
      | [] => []
      | c :: rest => c :: trimEndOnLastLineIfWhitespaceOnly rest
      end
  end.

(** ** Properties *)

(** A line break of the source: a line feed, with or without a
    carriage return before it. *)
Definition isLineBreak (g : jsstring) : Prop := g = [10%N] \/ g = [13%N; 10%N].

Lemma matchLineBreak_inv (s g rest : jsstring) :
  matchLineBreak s = Some (g, rest) -> s = g ++ rest /\ isLineBreak g.
Proof.
  unfold matchLineBreak, isLineBreak. destruct s as [| c1 [| c2 s2]]; [discriminate | |].
  - destruct (c1 =? 10)%N eqn:E; [| discriminate].
    apply N.eqb_eq in E. subst. intros H. injection H as <- <-. now split; [| left].
  - destruct ((c1 =? 13)%N && (c2 =? 10)%N) eqn:E.
    + apply andb_true_iff in E as [E1 E2]. apply N.eqb_eq in E1, E2. subst.
      intros H. injection H as <- <-. now split; [| right].
    + destruct (c1 =? 10)%N eqn:E1; [| discriminate].
      apply N.eqb_eq in E1. subst. intros H. injection H as <- <-. now split; [| left].
Qed.

Lemma lazySpacesThenBreak_inv (s g rest : jsstring) :
  lazySpacesThenBreak s = Some (g, rest) ->
  exists w, s = w ++ g ++ rest /\ allWhiteSpace w /\ isLineBreak g.
Proof.
  induction s as [| c s IH]; cbn [lazySpacesThenBreak].
  - destruct (matchLineBreak []) eqn:E; [| discriminate]. discriminate E.
  - destruct (matchLineBreak (c :: s)) as [m |] eqn:E.
    + intros H. injection H as ->. apply matchLineBreak_inv in E as [E Hg].
      exists []. now repeat split.
    + destruct (isWhiteSpace c) eqn:Hc; [| discriminate].
      intros H. destruct (IH H) as (w & -> & Hw & Hg).
      exists (c :: w). split; [reflexivity |]. split; [| exact Hg].
      unfold allWhiteSpace. simpl. now rewrite Hc.
Qed.

Lemma matchLeadingWhitespace_inv (str g rest : jsstring) :
  matchLeadingWhitespace str = Some (g, rest) ->
  exists w, str = w ++ g ++ rest /\ w <> [] /\ allWhiteSpace w /\ isLineBreak g.
Proof.
  destruct str as [| c s]; [discriminate |]. cbn [matchLeadingWhitespace].
  destruct (isWhiteSpace c) eqn:Hc; [| discriminate].
  intros H. destruct (lazySpacesThenBreak_inv _ _ _ H) as (w & -> & Hw & Hg).
  exists (c :: w). split; [reflexivity |]. split; [discriminate |].
  split; [| exact Hg]. unfold allWhiteSpace. simpl. now rewrite Hc.
Qed.

(** [trimLeadingWhitespaceUntilNewline] takes nothing but white space
    away, and only from the front; when it takes some, what is left
    starts with a line break; a text that does not start with white
    space is returned as it is. *)
Theorem trimLeadingWhitespaceUntilNewline_removes_white_space (str : jsstring) :
  (exists w,
     str = w ++ trimLeadingWhitespaceUntilNewline str /\ allWhiteSpace w
     /\ (w <> [] ->
         exists g rest, isLineBreak g
                        /\ trimLeadingWhitespaceUntilNewline str = g ++ rest))
  /\ (forall c r, str = c :: r -> isWhiteSpace c = false ->
      trimLeadingWhitespaceUntilNewline str = str).
Proof.
  unfold trimLeadingWhitespaceUntilNewline. split.
  - destruct (matchLeadingWhitespace str) as [[g rest] |] eqn:E.
    + destruct (matchLeadingWhitespace_inv _ _ _ E) as (w & -> & Hne & Hw & Hg).
      exists w. split; [reflexivity |]. split; [exact Hw |].
      intros _. now exists g, rest.
    + exists []. split; [reflexivity |]. split; [reflexivity |].
      intros H. now contradiction H.
  - intros c r -> Hc. cbn [matchLeadingWhitespace]. now rewrite Hc.
Qed.

(** White space other than the characters of a line break. *)
Definition isInlineSpace (c : N) : Prop :=
  isWhiteSpace c = true /\ c <> 10%N /\ c <> 13%N.

Lemma matchLineBreak_other (c : N) (s : jsstring) :
  c <> 10%N -> c <> 13%N -> matchLineBreak (c :: s) = None.
Proof.
  intros H10 H13. unfold matchLineBreak.
  apply N.eqb_neq in H10, H13. rewrite H10, H13. now destruct s.
Qed.

Lemma matchLineBreak_lf (rest : jsstring) :
  matchLineBreak (10%N :: rest) = Some ([10%N], rest).
Proof. now destruct rest. Qed.

Lemma lazySpacesThenBreak_inline (w tail : jsstring) (m : jsstring * jsstring) :
  Forall isInlineSpace w -> matchLineBreak tail = Some m ->
  lazySpacesThenBreak (w ++ tail) = Some m.
Proof.
  intros Hw Hm. induction Hw as [| c w (Hc & H10 & H13) _ IH]; simpl app.
  - destruct tail; cbn [lazySpacesThenBreak]; now rewrite Hm.
  - cbn [lazySpacesThenBreak]. rewrite matchLineBreak_other by assumption.
    now rewrite Hc.
Qed.

(** White space, other than line breaks, in front of a line break is
    removed and the line break is kept: so for a line feed, so for a
    carriage return and a line feed. *)
Theorem trimLeadingWhitespaceUntilNewline_blank_first_line (w rest : jsstring) :
  w <> [] -> Forall isInlineSpace w ->
  trimLeadingWhitespaceUntilNewline (w ++ 10%N :: rest) = 10%N :: rest
  /\ trimLeadingWhitespaceUntilNewline (w ++ 13%N :: 10%N :: rest)
     = 13%N :: 10%N :: rest.
Proof.
  intros Hne Hw. destruct w as [| c w]; [contradiction |].
  apply Forall_cons_iff in Hw as [(Hc & _ & _) Hw].
  unfold trimLeadingWhitespaceUntilNewline. simpl app.
  cbn [matchLeadingWhitespace]. rewrite Hc. split.
  - now rewrite (lazySpacesThenBreak_inline w (10%N :: rest) ([10%N], rest) Hw
                   (matchLineBreak_lf rest)).
  - now rewrite (lazySpacesThenBreak_inline w (13%N :: 10%N :: rest)
                   ([13%N; 10%N], rest) Hw eq_refl).
Qed.

(** The statement applies to two spaces in front of a line feed. *)
Lemma trimLeadingWhitespaceUntilNewline_blank_first_line_witness :
  trimLeadingWhitespaceUntilNewline (lit "  " ++ 10%N :: lit "  foo") = 10%N :: lit "  foo"
  /\ trimLeadingWhitespaceUntilNewline (lit "  " ++ 13%N :: 10%N :: lit "  foo")
     = 13%N :: 10%N :: lit "  foo".
Proof.
  apply (trimLeadingWhitespaceUntilNewline_blank_first_line (lit "  ") (lit "  foo")).
  - discriminate.
  - repeat constructor; discriminate.
Defined.

(** *** [trimEndOnLastLineIfWhitespaceOnly] *)

Lemma spacesToEnd_iff (s : jsstring) :
  spacesToEnd s = true <-> s <> [] /\ allWhiteSpace s.
Proof.
  unfold spacesToEnd, allWhiteSpace. rewrite andb_true_iff, negb_true_iff, Z.eqb_neq.
  split; intros [H1 H2]; (split; [| exact H2]).
  - intros ->. now apply H1.
  - intros E. apply len_zero_nil in E. now apply H1.
Qed.

Lemma matchBreakThenSpaces_inv (s g : jsstring) :
  matchBreakThenSpaces s = Some g ->
  exists w, s = g ++ w /\ w <> [] /\ allWhiteSpace w /\ isLineBreak g.
Proof.
  unfold matchBreakThenSpaces, isLineBreak.
  destruct s as [| c1 [| c2 s2]]; [discriminate | discriminate |].
  destruct ((c1 =? 13)%N && (c2 =? 10)%N && spacesToEnd s2) eqn:E.
  - apply andb_true_iff in E as [E E3]. apply andb_true_iff in E as [E1 E2].
    apply N.eqb_eq in E1, E2. subst. apply spacesToEnd_iff in E3 as [Hne Hw].
    intros H. injection H as <-. exists s2.
    split; [reflexivity |]. split; [exact Hne |]. split; [exact Hw | now right].
  - destruct ((c1 =? 10)%N && spacesToEnd (c2 :: s2)) eqn:E'; [| discriminate].
    apply andb_true_iff in E' as [E1 E3]. apply N.eqb_eq in E1. subst.
    apply spacesToEnd_iff in E3 as [Hne Hw].
    intros H. injection H as <-. exists (c2 :: s2).
    split; [reflexivity |]. split; [exact Hne |]. split; [exact Hw | now left].
Qed.

Lemma matchBreakThenSpaces_complete (g w : jsstring) :
  isLineBreak g -> w <> [] -> allWhiteSpace w ->
  matchBreakThenSpaces (g ++ w) <> None.
Proof.
  intros [-> | ->] Hne Hw; simpl app; unfold matchBreakThenSpaces.
  - destruct w as [| c2 s2]; [contradiction |].
    replace (spacesToEnd (c2 :: s2)) with true
      by (symmetry; now apply spacesToEnd_iff).
    simpl. discriminate.
  - destruct w as [| c3 s3]; [contradiction |].
    replace (spacesToEnd (c3 :: s3)) with true
      by (symmetry; now apply spacesToEnd_iff).
    simpl. discriminate.
Qed.

Lemma trimEndOnLastLine_decompose (text : jsstring) :
  exists w,
    text = trimEndOnLastLineIfWhitespaceOnly text ++ w /\ allWhiteSpace w
    /\ (w <> [] -> exists p, trimEndOnLastLineIfWhitespaceOnly text = p ++ [10%N]).
Proof.
  induction text as [| c rest (w & E & Hw & Hend)];
    cbn [trimEndOnLastLineIfWhitespaceOnly].
  - simpl. exists []. repeat split. intros H. now contradiction H.
  - destruct (matchBreakThenSpaces (c :: rest)) as [g |] eqn:M.
    + destruct (matchBreakThenSpaces_inv _ _ M) as (w' & -> & Hne & Hw' & Hg).
      exists w'. split; [reflexivity |]. split; [exact Hw' |]. intros _.
      destruct Hg as [-> | ->]; [now exists [] | now exists [13%N]].
    + exists w. split; [simpl; now f_equal |]. split; [exact Hw |].
      intros Hne. destruct (Hend Hne) as (p & ->). now exists (c :: p).
Qed.

(** [trimEndOnLastLineIfWhitespaceOnly] takes nothing but white space
    away, and only from the end; when it takes some, what is left
    ends with a line feed; a text whose last character is not white
    space is returned as it is. *)
Theorem trimEndOnLastLineIfWhitespaceOnly_removes_white_space (text : jsstring) :
  (exists w,
     text = trimEndOnLastLineIfWhitespaceOnly text ++ w /\ allWhiteSpace w
     /\ (w <> [] -> exists p, trimEndOnLastLineIfWhitespaceOnly text = p ++ [10%N]))
  /\ (endsInWhiteSpace text = false -> trimEndOnLastLineIfWhitespaceOnly text = text).
Proof.
  split; [apply trimEndOnLastLine_decompose |].
  intros Hend. destruct (trimEndOnLastLine_decompose text) as (w & E & Hw & _).
  destruct (rev w) as [| c rw] eqn:R.
  - apply (f_equal (@rev N)) in R. rewrite rev_involutive in R. simpl in R.
    subst w. now rewrite app_nil_r in E.
  - exfalso. unfold endsInWhiteSpace in Hend. rewrite E, rev_app_distr, R in Hend.
    simpl in Hend. apply allWhiteSpace_rev in Hw. rewrite R in Hw.
    unfold allWhiteSpace in Hw. simpl in Hw. apply andb_true_iff in Hw as [Hc _].
    congruence.
Qed.

(** Applying [trimEndOnLastLineIfWhitespaceOnly] to its own answer
    changes nothing more. *)
Theorem trimEndOnLastLineIfWhitespaceOnly_idempotent (text : jsstring) :
  trimEndOnLastLineIfWhitespaceOnly (trimEndOnLastLineIfWhitespaceOnly text)
  = trimEndOnLastLineIfWhitespaceOnly text.
Proof.
  induction text as [| c rest IH]; [reflexivity |].
  cbn [trimEndOnLastLineIfWhitespaceOnly].
  destruct (matchBreakThenSpaces (c :: rest)) as [g |] eqn:M.
  - destruct (matchBreakThenSpaces_inv _ _ M) as (_ & _ & _ & _ & [-> | ->]);
      reflexivity.
  - cbn [trimEndOnLastLineIfWhitespaceOnly].
    destruct (matchBreakThenSpaces (c :: trimEndOnLastLineIfWhitespaceOnly rest))
      as [g |] eqn:M'; [| now rewrite IH].
    exfalso.
    destruct (matchBreakThenSpaces_inv _ _ M') as (w & E & Hne & Hw & Hg).
    destruct (trimEndOnLastLine_decompose rest) as (w' & E' & Hw' & _).
    assert (Hs : c :: rest = g ++ (w ++ w')).
    { rewrite E' at 1. rewrite app_assoc, <- E. reflexivity. }
    rewrite Hs in M.
    apply (matchBreakThenSpaces_complete g (w ++ w') Hg); [| | exact M].
    + destruct w; [contradiction | discriminate].
    + now apply allWhiteSpace_app.
Qed.

(** *** [indentation] *)

(** What a leading tab or space adds to the indentation. *)
Definition indentWidth (tabSize : Z) (c : N) : Z :=
  if (c =? 9)%N then tabSize else 1.

Definition isTabOrSpace (c : N) : bool := (c =? 9)%N || (c =? 32)%N.

Lemma indentationFrom_run (tabSize : Z) (w rest : jsstring) (p : Z) :
  forallb isTabOrSpace w = true ->
  indentationFrom tabSize (w ++ rest) p
  = indentationFrom tabSize rest
      (p + fold_right (fun c acc => indentWidth tabSize c + acc) 0 w).
Proof.
  revert p. induction w as [| c w IH]; intros p Hw.
  - simpl. f_equal. lia.
  - simpl in Hw. apply andb_true_iff in Hw as [Hc Hw].
    unfold isTabOrSpace in Hc. cbn [app indentationFrom fold_right].
    change (indentWidth tabSize c) with (if (c =? 9)%N then tabSize else 1).
    destruct (c =? 9)%N eqn:E9.
    + rewrite IH by exact Hw. f_equal. lia.
    + simpl in Hc. rewrite Hc. rewrite IH by exact Hw. f_equal. lia.
Qed.

Lemma indentationFrom_stop (tabSize : Z) (rest : jsstring) (p : Z) :
  match rest with [] => True | c :: _ => isTabOrSpace c = false end ->
  indentationFrom tabSize rest p = p.
Proof.
  destruct rest as [| c r]; [reflexivity |]. unfold isTabOrSpace. simpl.
  intros H. apply orb_false_iff in H as [-> ->]. reflexivity.
Qed.

(** [indentation] counts the tabs and spaces a line starts with, a tab
    for the tab size and a space for one, and stops at the first other
    character, another white space included: what comes after does
    not count. *)
Theorem indentation_counts_leading_tabs_and_spaces
    (tabSize : Z) (w rest : jsstring) :
  forallb isTabOrSpace w = true ->
  match rest with [] => True | c :: _ => isTabOrSpace c = false end ->
  indentation tabSize (w ++ rest)
  = fold_right (fun c acc => indentWidth tabSize c + acc) 0 w.
Proof.
  intros Hw Hrest. unfold indentation.
  rewrite indentationFrom_run by exact Hw.
  now rewrite indentationFrom_stop.
Qed.

(** The statement applies to a tab and two spaces in front of a call,
    with tabs four wide. *)
Lemma indentation_counts_leading_tabs_and_spaces_witness :
  indentation 4 (lit "\t  " ++ lit "call()") = 6.
Proof.
  exact (indentation_counts_leading_tabs_and_spaces 4 (lit "\t  ") (lit "call()")
           eq_refl eq_refl).
Defined.

(** *** [collapseDuplicativeWhitespace] *)

Lemma dropTabsAndSpaces_decompose (s : jsstring) :
  exists w,
    s = w ++ dropTabsAndSpaces s /\ forallb isTabOrSpace w = true
    /\ match dropTabsAndSpaces s with
       | [] => True
       | c :: _ => isTabOrSpace c = false
       end.
Proof.
  induction s as [| c s (w & E & Hw & Hhead)]; simpl.
  - now exists [].
  - fold (isTabOrSpace c). destruct (isTabOrSpace c) eqn:Hc.
    + exists (c :: w). split; [simpl; now f_equal |]. split; [| exact Hhead].
      simpl. now rewrite Hc.
    + exists []. now repeat split.
Qed.

Lemma endsWith_last (p : jsstring) (c d : N) :
  endsWith (p ++ [c]) [d] = (c =? d)%N.
Proof.
  unfold endsWith. rewrite rev_app_distr. simpl. rewrite startsWith_nil.
  apply andb_true_r.
Qed.

(** When the prefix ends in a space or a tab,
    [collapseDuplicativeWhitespace] takes the tabs and spaces the
    completion starts with away, and nothing else: what is left does
    not start with one.  When the prefix is empty or ends in anything
    else, the completion is returned as it is. *)
Theorem collapseDuplicativeWhitespace_spec (prefix completion : jsstring) :
  (forall p c, prefix = p ++ [c] -> isTabOrSpace c = true ->
     exists w,
       completion = w ++ collapseDuplicativeWhitespace prefix completion
       /\ forallb isTabOrSpace w = true
       /\ match collapseDuplicativeWhitespace prefix completion with
          | [] => True
          | d :: _ => isTabOrSpace d = false
          end)
  /\ (forall p c, prefix = p ++ [c] -> isTabOrSpace c = false ->
      collapseDuplicativeWhitespace prefix completion = completion)
  /\ (prefix = [] -> collapseDuplicativeWhitespace prefix completion = completion).
Proof.
  unfold collapseDuplicativeWhitespace. split; [| split].
  - intros p c -> Hc. rewrite !endsWith_last.
    unfold isTabOrSpace in Hc. rewrite orb_comm in Hc. rewrite Hc.
    apply dropTabsAndSpaces_decompose.
  - intros p c -> Hc. rewrite !endsWith_last.
    unfold isTabOrSpace in Hc. rewrite orb_comm in Hc. now rewrite Hc.
  - intros ->. reflexivity.
Qed.

(** *** [getFirstNCharsPreservingLeadingSpaces] *)

(** For a number of characters that is not negative, the answer is the
    white space the value starts with followed by that many of the
    characters after it, or fewer when the value ends before. *)
Theorem getFirstNChars_keeps_leading_white_space (value : jsstring) (charsNumber : Z) :
  0 <= charsNumber ->
  getFirstNCharsPreservingLeadingSpaces value charsNumber
  = leadingWhiteSpace value ++ firstn (Z.to_nat charsNumber) (trimStart value).
Proof.
  intros Hn. unfold getFirstNCharsPreservingLeadingSpaces.
  rewrite searchNonWhitespace_leading.
  pose proof (len_nonneg (leadingWhiteSpace value)) as Hl.
  rewrite slice_firstn by lia.
  replace (Z.to_nat (0 + len (leadingWhiteSpace value) + charsNumber))
    with (length (leadingWhiteSpace value) + Z.to_nat charsNumber)%nat
    by (unfold len; lia).
  clear Hl. generalize (leading_trimStart value).
  generalize (leadingWhiteSpace value) (trimStart value). intros lw ts ->.
  rewrite firstn_app, firstn_all2 by lia.
  now replace (length lw + Z.to_nat charsNumber - length lw)%nat
    with (Z.to_nat charsNumber) by lia.
Qed.

(** The statement applies to three characters of an indented line. *)
Lemma getFirstNChars_keeps_leading_white_space_witness :
  getFirstNCharsPreservingLeadingSpaces (lit "  key: value") 3 = lit "  key".
Proof.
  exact (getFirstNChars_keeps_leading_white_space (lit "  key: value") 3
           ltac:(discriminate)).
Defined.

(** *** [getHeadAndTail] *)

(** The test of the loop of [getHeadAndTail]. *)
Definition isNonBlank (line : jsstring) : bool := len (trim line) >? 0.

Definition countNonBlank (lines : list jsstring) : nat :=
  length (filter isNonBlank lines).

Lemma countNonBlank_cons (line : jsstring) (lines : list jsstring) :
  countNonBlank (line :: lines)
  = ((if isNonBlank line then 1 else 0) + countNonBlank lines)%nat.
Proof. unfold countNonBlank. simpl. now destruct (isNonBlank line). Qed.

Lemma countNonBlank_rev (lines : list jsstring) :
  countNonBlank (rev lines) = countNonBlank lines.
Proof.
  induction lines as [| l lines IH]; [reflexivity |].
  rewrite countNonBlank_cons. unfold countNonBlank in *. simpl rev.
  rewrite filter_app, length_app, IH. simpl. destruct (isNonBlank l); simpl; lia.
Qed.

(** Where the loop stops: at the line with which the count of
    non-blank lines reaches the threshold. *)
Lemma tailStartLoop_stops (revLines : list jsstring) (i c : Z) :
  c < 2 ->
  (c + Z.of_nat (countNonBlank revLines) < 2 /\ tailStartLoop revLines i c = -1)
  \/ (exists passed x rest,
        revLines = passed ++ x :: rest
        /\ tailStartLoop revLines i c = i - len passed
        /\ isNonBlank x = true
        /\ c + Z.of_nat (countNonBlank passed) = 1).
Proof.
  revert i c. induction revLines as [| line rest IH]; intros i c Hc.
  - left. split; [simpl; lia | reflexivity].
  - cbn [tailStartLoop]. fold (isNonBlank line). unfold tailThreshold.
    rewrite countNonBlank_cons.
    destruct (isNonBlank line) eqn:Hl.
    + destruct (c + 1 >=? 2) eqn:E.
      * right. exists [], line, rest. split; [reflexivity |].
        split; [unfold len; simpl; lia |]. split; [exact Hl |].
        apply Z.geb_le in E. simpl. lia.
      * assert (Hc' : c + 1 < 2).
        { destruct (Z.geb_spec (c + 1) 2); [discriminate | lia]. }
        destruct (IH (i - 1) (c + 1) Hc')
          as [[Hlt Hr] | (passed & x & rest' & Hs & Hr & Hx & Hcnt)].
        -- left. split; [lia | exact Hr].
        -- right. exists (line :: passed), x, rest'.
           split; [now rewrite Hs |]. split; [| split; [exact Hx |]].
           ++ rewrite Hr. unfold len. simpl length. lia.
           ++ rewrite countNonBlank_cons, Hl. lia.
    + replace (c >=? 2) with false
        by (symmetry; destruct (Z.geb_spec c 2); [lia | reflexivity]).
      destruct (IH (i - 1) c Hc)
        as [[Hlt Hr] | (passed & x & rest' & Hs & Hr & Hx & Hcnt)].
      * left. split; [lia | exact Hr].
      * right. exists (line :: passed), x, rest'.
        split; [now rewrite Hs |]. split; [| split; [exact Hx |]].
        -- rewrite Hr. unfold len. simpl length. lia.
        -- rewrite countNonBlank_cons, Hl. lia.
Qed.

(** The lines before the tail and the lines of the tail. *)
Lemma findTailStart_split (lines : list jsstring) :
  ((countNonBlank lines < 2)%nat /\ findTailStart lines = -1)
  \/ (exists headLines x tailRest,
        lines = headLines ++ x :: tailRest
        /\ findTailStart lines = len headLines
        /\ isNonBlank x = true
        /\ countNonBlank tailRest = 1%nat).
Proof.
  unfold findTailStart.
  destruct (tailStartLoop_stops (rev lines) (len lines - 1) 0 ltac:(lia))
    as [[Hlt Hr] | (passed & x & rest & Hs & Hr & Hx & Hcnt)].
  - left. rewrite countNonBlank_rev in Hlt. split; [lia | exact Hr].
  - right. exists (rev rest), x, (rev passed).
    assert (Hl : lines = rev rest ++ x :: rev passed).
    { rewrite <- (rev_involutive lines), Hs, rev_app_distr. simpl.
      now rewrite <- app_assoc. }
    split; [exact Hl |]. split; [| split; [exact Hx |]].
    + rewrite Hr. rewrite Hl at 1. unfold len.
      rewrite length_app. simpl length. rewrite !length_rev. lia.
    + rewrite countNonBlank_rev. lia.
Qed.

(** [getHeadAndTail] sets [overlap] exactly when the prefix has fewer
    than two non-blank lines; [head] and [tail] are then the same, the
    whole prefix trimmed, and [overlap] is the prefix itself. *)
Theorem getHeadAndTail_overlap (s : jsstring) :
  ((countNonBlank (split s NL) < 2)%nat /\
   getHeadAndTail s
   = {| head := trimSpace s; tail := trimSpace s; overlap := Some s |})
  \/ ((2 <= countNonBlank (split s NL))%nat /\ overlap (getHeadAndTail s) = None).
Proof.
  unfold getHeadAndTail.
  destruct (findTailStart_split (split s NL))
    as [[Hlt Hr] | (headLines & x & tailRest & Hs & Hr & Hx & Hcnt)].
  - left. split; [exact Hlt |]. now rewrite Hr.
  - right. split.
    + rewrite Hs. unfold countNonBlank in *.
      rewrite filter_app, length_app. simpl. rewrite Hx. simpl. lia.
    + rewrite Hr. pose proof (len_nonneg headLines).
      now replace (len headLines =? -1) with false
        by (symmetry; apply Z.eqb_neq; lia).
Qed.

(** When no [overlap] is set, the lines of the prefix are cut in two:
    [head] is made of the first ones and [tail] of the others, and the
    tail starts with a line that is not blank and holds exactly two
    such lines. *)
Theorem getHeadAndTail_tail_two_lines (s : jsstring) :
  overlap (getHeadAndTail s) = None ->
  exists headLines x tailRest,
    split s NL = headLines ++ x :: tailRest
    /\ reassemble (head (getHeadAndTail s)) = join NL headLines
    /\ reassemble (tail (getHeadAndTail s)) = join NL (x :: tailRest)
    /\ isNonBlank x = true
    /\ countNonBlank (x :: tailRest) = 2%nat.
Proof.
  unfold getHeadAndTail.
  destruct (findTailStart_split (split s NL))
    as [[Hlt Hr] | (headLines & x & tailRest & Hs & Hr & Hx & Hcnt)].
  - rewrite Hr. simpl. discriminate.
  - rewrite Hr. pose proof (len_nonneg headLines) as Hh.
    replace (len headLines =? -1) with false by (symmetry; apply Z.eqb_neq; lia).
    intros _. exists headLines, x, tailRest. cbn [head tail].
    rewrite !reassemble_trimSpace.
    assert (Hle : 0 <= len headLines <= len (split s NL)).
    { rewrite Hs, len_app. pose proof (len_nonneg (x :: tailRest)). lia. }
    rewrite slice_prefix, slice_suffix by exact Hle.
    unfold len. rewrite Nat2Z.id. rewrite Hs at 2 3.
    rewrite firstn_app, Nat.sub_diag, firstn_all, skipn_app, Nat.sub_diag, skipn_all.
    simpl. rewrite app_nil_r.
    split; [exact Hs |]. split; [reflexivity |]. split; [reflexivity |].
    split; [exact Hx |]. rewrite countNonBlank_cons, Hx, Hcnt. reflexivity.
Qed.

(** The statement applies to a prefix of three statements and a blank
    line. *)
Lemma getHeadAndTail_tail_two_lines_witness :
  exists headLines x tailRest,
    split (lit "a()\nb()\n\nc()") NL = headLines ++ x :: tailRest
    /\ reassemble (head (getHeadAndTail (lit "a()\nb()\n\nc()"))) = join NL headLines
    /\ reassemble (tail (getHeadAndTail (lit "a()\nb()\n\nc()"))) = join NL (x :: tailRest)
    /\ isNonBlank x = true
    /\ countNonBlank (x :: tailRest) = 2%nat.
Proof.
  exact (getHeadAndTail_tail_two_lines (lit "a()\nb()\n\nc()") eq_refl).
Defined.

(** *** [trimUntilSuffix] *)

Lemma join_starts (sep : jsstring) (before after : list jsstring) :
  exists rest, join sep (before ++ after) = join sep before ++ rest.
Proof.
  destruct before as [| b before]; [now exists (join sep after) |].
  destruct after as [| a after].
  - exists []. now rewrite !app_nil_r.
  - exists (sep ++ join sep (a :: after)). apply join_app; discriminate.
Qed.

Lemma trimEnd_all (w : jsstring) : allWhiteSpace w -> trimEnd w = [].
Proof.
  intros Hw. unfold trimEnd. rewrite trimStart_all; [reflexivity |].
  now apply allWhiteSpace_rev.
Qed.

Lemma join_split_lines (s : jsstring) : join NL (split s NL) = s.
Proof. exact (join_split_single 10%N s). Qed.

Lemma trimUntilSuffix_starts (insertion prefix suffix : jsstring) :
  exists rest, trimEnd insertion = trimUntilSuffix insertion prefix suffix ++ rest.
Proof.
  unfold trimUntilSuffix.
  destruct (len (firstNonEmptyLine (split suffix NL)) =? 0).
  - exists []. now rewrite app_nil_r.
  - rewrite getFirstNChars_window.
    destruct (findInsertionEnd_spec prefix (firstNonEmptyLine (split suffix NL))
                (split (trimEnd insertion) NL) 0
                (len (split (trimEnd insertion) NL)))
      as [[_ E] | (before & l & after & Hl & _ & _ & E)];
      change (Z.of_nat 0) with 0 in E; rewrite E.
    + exists []. rewrite slice_all by lia.
      now rewrite join_split_lines, app_nil_r.
    + rewrite slice_firstn by lia. rewrite Nat2Z.id, Hl. simpl Nat.add.
      rewrite firstn_app, Nat.sub_diag, firstn_all. simpl. rewrite app_nil_r.
      destruct (join_starts NL before (l :: after)) as (rest & Hrest).
      exists rest. rewrite <- Hrest, <- Hl. symmetry. apply join_split_lines.
Qed.

(** Whatever the prefix and the suffix, what [trimUntilSuffix] answers
    is the beginning of the right-trimmed insertion: it adds nothing
    and changes nothing; an insertion of white space alone comes out
    empty. *)
Theorem trimUntilSuffix_is_a_beginning (insertion prefix suffix : jsstring) :
  (exists rest, trimEnd insertion = trimUntilSuffix insertion prefix suffix ++ rest)
  /\ (forallb isWhiteSpace insertion = true ->
      trimUntilSuffix insertion prefix suffix = []).
Proof.
  split; [apply trimUntilSuffix_starts |].
  intros Hw. destruct (trimUntilSuffix_starts insertion prefix suffix) as (rest & E).
  rewrite (trimEnd_all insertion Hw) in E.
  symmetry in E. now apply app_eq_nil in E as [E _].
Qed.

(** *** [extractFromCodeBlock] *)

Lemma trimEnd_idempotent (s : jsstring) : trimEnd (trimEnd s) = trimEnd s.
Proof.
  unfold trimEnd. now rewrite rev_involutive, trimStart_idempotent.
Qed.

Lemma extract_starts_input (c : jsstring) :
  includes c OPENING_CODE_TAG = false ->
  exists before rest,
    extractFromCodeBlock c = trimEnd before /\ c = trimEnd before ++ rest
    /\ forall n, occursAt CLOSING_CODE_TAG c n -> (length before <= n)%nat.
Proof.
  intros Hopen.
  destruct (extractFromCodeBlock_cases c) as [[E _] | (_ & before & Hbefore & R)];
    [congruence |].
  destruct (trimEnd_decompose before) as (w & Hw & _).
  exists before. destruct Hbefore as [[Hno Eb] | (rest & Eb & Hmin)].
  - exists w. split; [exact R |]. split; [now rewrite <- Hw |].
    intros n Hn. now apply Hno in Hn.
  - exists (w ++ CLOSING_CODE_TAG ++ rest). split; [exact R |]. split; [| exact Hmin].
    rewrite app_assoc, <- Hw. exact Eb.
Qed.

(** Extracting from what [extractFromCodeBlock] answered gives the same
    text again: the answer holds no tag and no trailing white space. *)
Theorem extractFromCodeBlock_idempotent (c : jsstring) :
  extractFromCodeBlock (extractFromCodeBlock c) = extractFromCodeBlock c.
Proof.
  destruct (includes c OPENING_CODE_TAG) eqn:Hopen.
  - destruct (extractFromCodeBlock_cases c) as [[_ ->] | (E & _)];
      [reflexivity | congruence].
  - destruct (extract_starts_input c Hopen) as (before & rest & R & Hc & Hmin).
    rewrite R.
    destruct (extractFromCodeBlock_cases (trimEnd before))
      as [[E _] | (_ & before' & Hbefore' & R')].
    + exfalso. apply includes_true in E as (n & Hn).
      apply includes_false with (n := n) in Hopen. apply Hopen.
      rewrite Hc. now apply occursAt_extend.
    + rewrite R'. destruct Hbefore' as [[_ ->] | (rest' & E' & _)];
        [apply trimEnd_idempotent |].
      exfalso.
      assert (Hin : occursAt CLOSING_CODE_TAG (trimEnd before) (length before'))
        by now exists before', rest'.
      pose proof (occursAt_bound _ _ _ Hin) as Hb.
      apply occursAt_extend with (r := rest) in Hin. rewrite <- Hc in Hin.
      apply Hmin in Hin.
      destruct (trimEnd_decompose before) as (w & Hw & _).
      apply (f_equal (@length N)) in Hw. rewrite length_app in Hw.
      simpl in Hb. lia.
Qed.

(** *** [fixBadCompletionStart] *)

(** Whatever the [Emoji_Presentation] table, [fixBadCompletionStart]
    only takes characters away from the front of the completion; when
    it takes some, what is left does not start with white space. *)
Theorem fixBadCompletionStart_removes_a_start (EP : N -> bool) (completion : jsstring) :
  exists removed,
    completion = removed ++ fixBadCompletionStart EP completion
    /\ (removed <> [] ->
        trimStart (fixBadCompletionStart EP completion)
        = fixBadCompletionStart EP completion).
Proof.
  unfold fixBadCompletionStart, testBadStart, replaceBadStart.
  destruct (matchBadStart EP completion) as [rest |] eqn:M.
  - destruct (matchBadStart_sound EP (length completion) completion rest (le_n _) M)
      as (r & w & -> & _ & _ & _ & Hrest).
    exists (r ++ w). split; [now rewrite <- app_assoc |]. intros _. exact Hrest.
  - exists []. split; [reflexivity |]. intros H. now contradiction H.
Qed.

End TextProcessingMore.

(** * The helper of [completion.test.ts] *)

Module TestHelpers.
Import JS JSFacts TextProcessing TextProcessingFacts.

(** The match of [/^ */]: the spaces a line starts with. *)
Fixpoint leadingSpaces (line : jsstring) : jsstring :=
  match line with
  | [] => []
  | c :: rest => if (c =? 32)%N then c :: leadingSpaces rest else []
  end.

(** [s.replace(pattern, replacement)] with a string for a pattern: the
    first occurrence is replaced (no replacement of the source has a
    dollar sign in it). *)
Definition replaceFirst (s pattern replacement : jsstring) : jsstring :=
  let i := indexOf s pattern in
  if i =? -1 then s
  else slice s 0 (Some i) ++ replacement ++ slice s (i + len pattern) None.

(** [lines[i]]; the test of the length comes first in the source, and
    the empty default stands for an [undefined] that cannot arise. *)
Definition lineAt (lines : list jsstring) (i : nat) : jsstring := nth i lines [].

Definition truncateMultilineString (string : jsstring) : jsstring :=
  let lines := split string NL in
  if len lines <=? 1 then string
  else if negb (len (lineAt lines 0) =? 0) then string
  else
    let indentation := leadingSpaces (lineAt lines 1) in
    join NL
      (slice
         (map (fun line =>
                 if startsWith line indentation
                 then replaceFirst line indentation [] else line)
              lines)
         1 None).

(** ** Properties *)

Lemma splitGo_line (l rest cur : jsstring) :
  ~ In 10%N l ->
  splitGo [10%N] (l ++ 10%N :: rest) 0 cur
  = (rev cur ++ l) :: splitGo [10%N] rest 0 [].
Proof.
  revert cur. induction l as [| x l IH]; intros cur Hl.
  - simpl app. cbn [splitGo]. rewrite startsWith_single, N.eqb_refl.
    now rewrite app_nil_r.
  - simpl app. cbn [splitGo]. rewrite startsWith_single.
    replace (x =? 10)%N with false
      by (symmetry; apply N.eqb_neq; intros ->; apply Hl; now left).
    rewrite IH by (intros H; apply Hl; now right).
    simpl. now rewrite <- app_assoc.
Qed.

Lemma splitGo_last (l cur : jsstring) :
  ~ In 10%N l -> splitGo [10%N] l 0 cur = [rev cur ++ l].
Proof.
  revert cur. induction l as [| x l IH]; intros cur Hl.
  - simpl. now rewrite app_nil_r.
  - cbn [splitGo]. rewrite startsWith_single.
    replace (x =? 10)%N with false
      by (symmetry; apply N.eqb_neq; intros ->; apply Hl; now left).
    rewrite IH by (intros H; apply Hl; now right).
    simpl. now rewrite <- app_assoc.
Qed.

(** Lines without a line feed, joined and split again, are the same
    lines. *)
Lemma split_join_lines (ls : list jsstring) :
  ls <> [] -> Forall (fun l => ~ In 10%N l) ls -> split (join NL ls) NL = ls.
Proof.
  intros Hne Hall. induction Hall as [| l ls Hl Hall IH]; [contradiction |].
  destruct ls as [| l2 ls].
  - simpl. unfold split, NL. now rewrite splitGo_last.
  - rewrite join_cons by discriminate.
    change (split (l ++ NL ++ join NL (l2 :: ls)) NL)
      with (splitGo [10%N] (l ++ 10%N :: join NL (l2 :: ls)) 0 []).
    rewrite splitGo_line by exact Hl. simpl rev. simpl app at 1. f_equal.
    apply IH. discriminate.
Qed.

Lemma first_line_not_empty (c : N) (r : jsstring) :
  c <> 10%N -> exists l ls, split (c :: r) NL = l :: ls /\ l <> [].
Proof.
  intros Hc.
  destruct (first_split (c :: r) NL ltac:(discriminate)) as (before & Hf & Hb).
  destruct (split (c :: r) NL) as [| l ls]; [discriminate |].
  injection Hf as ->. exists before, ls. split; [reflexivity |].
  intros ->. destruct Hb as [[_ E] | (rest & E & _)]; [discriminate |].
  simpl in E. injection E as E _. now apply Hc.
Qed.

(** A text that does not start with a line feed is returned as it is. *)
Theorem truncateMultilineString_needs_leading_line_feed (c : N) (r : jsstring) :
  c <> 10%N -> truncateMultilineString (c :: r) = c :: r.
Proof.
  intros Hc. unfold truncateMultilineString.
  destruct (first_line_not_empty c r Hc) as (l & ls & -> & Hl).
  destruct (len (l :: ls) <=? 1); [reflexivity |].
  unfold lineAt. cbn [nth].
  replace (len l =? 0) with false; [reflexivity |].
  symmetry. apply Z.eqb_neq. intros E. now apply len_zero_nil in E.
Qed.

(** The statement applies to a line of code. *)
Lemma truncateMultilineString_needs_leading_line_feed_witness :
  truncateMultilineString (lit "return true") = lit "return true".
Proof.
  apply (truncateMultilineString_needs_leading_line_feed 114%N (lit "eturn true")).
  discriminate.
Defined.

Lemma leadingSpaces_indent (k : nat) (l : jsstring) :
  match l with [] => True | c :: _ => c <> 32%N end ->
  leadingSpaces (repeat 32%N k ++ l) = repeat 32%N k.
Proof.
  intros Hl. induction k as [| k IH]; simpl.
  - destruct l as [| c l]; [reflexivity |]. simpl.
    now replace (c =? 32)%N with false by (symmetry; now apply N.eqb_neq).
  - now rewrite IH.
Qed.

Lemma replaceFirst_start (ind l : jsstring) : replaceFirst (ind ++ l) ind [] = l.
Proof.
  unfold replaceFirst. unfold indexOf. rewrite indexOfFrom_eq, startsWith_app.
  simpl Z.eqb. cbv iota.
  destruct (slices_around (ind ++ l) [] ind l eq_refl) as [H1 H2].
  change (len (@nil N)) with 0 in H1, H2. now rewrite H1, H2.
Qed.

Lemma not_in_indent (k : nat) (l : jsstring) :
  ~ In 10%N l -> ~ In 10%N (repeat 32%N k ++ l).
Proof.
  intros Hl H. apply in_app_or in H as [H | H]; [| now apply Hl].
  apply repeat_spec in H. discriminate.
Qed.

(** The use the tests make of it: of a text that starts with a line
    feed and whose lines all start with the spaces of the first of
    them, [truncateMultilineString] drops the line feed and those
    spaces in front of every line. *)
Theorem truncateMultilineString_dedents (k : nat) (l1 : jsstring) (ls : list jsstring) :
  match l1 with [] => True | c :: _ => c <> 32%N end ->
  Forall (fun l => ~ In 10%N l) (l1 :: ls) ->
  truncateMultilineString (10%N :: join NL (map (app (repeat 32%N k)) (l1 :: ls)))
  = join NL (l1 :: ls).
Proof.
  intros H1 Hall. unfold truncateMultilineString. cbv zeta.
  assert (Hsplit : split (10%N :: join NL (map (app (repeat 32%N k)) (l1 :: ls))) NL
                   = [] :: map (app (repeat 32%N k)) (l1 :: ls)).
  { change (split (10%N :: join NL (map (app (repeat 32%N k)) (l1 :: ls))) NL)
      with (splitGo [10%N]
              ([] ++ 10%N :: join NL (map (app (repeat 32%N k)) (l1 :: ls))) 0 []).
    rewrite splitGo_line by (intros []).
    simpl rev. simpl app. f_equal.
    apply (split_join_lines (map (app (repeat 32%N k)) (l1 :: ls))); [discriminate |].
    apply Forall_forall. intros x Hx. apply in_map_iff in Hx as (l & <- & Hl).
    apply not_in_indent. rewrite Forall_forall in Hall. now apply Hall. }
  rewrite Hsplit.
  match goal with |- (if ?b then _ else _) = _ => destruct b eqn:E end.
  { apply Z.leb_le in E. unfold len in E. simpl length in E. lia. }
  unfold lineAt. cbn [nth map]. change (len (@nil N) =? 0) with true. cbn [negb].
  rewrite (leadingSpaces_indent k l1 H1).
  rewrite slice_suffix by (unfold len; simpl length; lia).
  change (Z.to_nat 1) with 1%nat. cbn [skipn].
  f_equal. rewrite startsWith_app, replaceFirst_start. f_equal.
  rewrite map_map. rewrite <- (map_id ls) at 2. apply map_ext.
  intros l. now rewrite startsWith_app, replaceFirst_start.
Qed.

(** The statement applies to a body of two statements, indented by
    four spaces. *)
Lemma truncateMultilineString_dedents_witness :
  truncateMultilineString
    (10%N :: join NL (map (app (repeat 32%N 4)) [lit "if (ok) {"; lit "    run()"]))
  = join NL [lit "if (ok) {"; lit "    run()"].
Proof.
  apply (truncateMultilineString_dedents 4 (lit "if (ok) {") [lit "    run()"]).
  - discriminate.
  - repeat constructor; intros H; vm_compute in H; intuition discriminate.
Defined.

End TestHelpers.

(** * [plugins/built-in/github-issues.ts] *)

Module GitHubIssues.
Import JS JSFacts.

(** ** [removeHtmlTags]

    [input.replace(/<[^>]+>|@@@[^@]+@@@/g, '')].  The number of code
    units in front of the first [stop] in [s], counted from [k]. *)
Fixpoint scanTo (stop : N) (s : jsstring) (k : nat) : option nat :=
  match s with
  | [] => None
  | c :: s' => if (c =? stop)%N then Some k else scanTo stop s' (S k)
  end.

(** [<[^>]+>] at the start of [s]: the length of the match.  The
    class takes every character up to the first [>], there must be
    one at least, and giving some back does not help. *)
Definition matchAngleTag (s : jsstring) : option nat :=
  match s with
  | [] => None
  | c :: s1 =>
      if (c =? 60)%N
      then match scanTo 62 s1 0 with
           | Some (S k) => Some (S k + 2)%nat
           | _ => None
           end
      else None
  end.

Definition atSigns : jsstring := [64%N; 64%N; 64%N].

(** [@@@[^@]+@@@] at the start of [s]: the length of the match. *)
Definition matchAtTag (s : jsstring) : option nat :=
  if startsWith s atSigns
  then match scanTo 64 (skipn 3 s) 0 with
       | Some (S k) =>
           if startsWith (skipn (S k) (skipn 3 s)) atSigns
           then Some (S k + 6)%nat else None
       | _ => None
       end
  else None.

(** The alternation at the start of [s]. *)
Definition matchTag (s : jsstring) : option nat :=
  match matchAngleTag s with
  | Some n => Some n
  | None => matchAtTag s
  end.

(** The global replacement, from left to right: [skip] code units of
    a match are still to be dropped. *)
Fixpoint removeFrom (s : jsstring) (skip : nat) : jsstring :=
  match s with
  | [] => []
  | c :: s' =>
      match skip with
      | S k => removeFrom s' k
      | O =>
          match matchTag s with
          | Some n => removeFrom s' (n - 1)
          | None => c :: removeFrom s' 0
          end
      end
  end.

Definition removeHtmlTags (input : jsstring) : jsstring := removeFrom input 0.

(** ** The items of [searchGitHub]

    The fields of [User], [Item] and [OutputItem]; [None] is [null], or
    a field left out. *)
Record User := {
  name : option jsstring;
  login : jsstring;
  html_url : option jsstring;
  url : option jsstring
}.

Record Item := {
  title : jsstring;
  body : jsstring;
  item_html_url : jsstring;
  assignee : option User;
  user : option User;
  created_at : jsstring;
  updated_at : jsstring;
  state : jsstring
}.

Record OutputItem := {
  out_title : jsstring;
  out_body : jsstring;
  out_url : jsstring;
  out_assignee : option User;
  out_user : option User;
  out_created_at : jsstring;
  out_updated_at : jsstring;
  out_state : jsstring
}.

(** The user object built for [user] and for [assignee]. *)
Definition outputUser (u : option User) : option User :=
  match u with
  | Some u => Some {| name := name u; login := login u;
                      html_url := None; url := html_url u |}
  | None => None
  end.

(** The function mapped over [response.items]. *)
Definition outputItem (item : Item) : OutputItem :=
  let title := slice (title item) 0 (Some 180) in
  let body := slice (removeHtmlTags (body item)) 0 (Some 300) in
  {| out_title := title;
     out_body := body;
     out_url := item_html_url item;
     out_assignee := outputUser (assignee item);
     out_user := outputUser (user item);
     out_created_at := created_at item;
     out_updated_at := updated_at item;
     out_state := state item |}.

(** [items?.map(...) ?? []]: no items, no output. *)
Definition outputItems (items : option (list Item)) : list OutputItem :=
  match items with
  | Some items => map outputItem items
  | None => []
  end.

(** ** Properties *)

Lemma scanTo_found (stop : N) (b c : jsstring) (k : nat) :
  ~ In stop b -> scanTo stop (b ++ stop :: c) k = Some (k + length b)%nat.
Proof.
  revert k. induction b as [| x b IH]; intros k Hb; simpl.
  - rewrite N.eqb_refl. f_equal. lia.
  - replace (x =? stop)%N with false
      by (symmetry; apply N.eqb_neq; intros ->; apply Hb; now left).
    rewrite IH by (intros H; apply Hb; now right). f_equal. lia.
Qed.

Lemma scanTo_none (stop : N) (s : jsstring) (k : nat) :
  ~ In stop s -> scanTo stop s k = None.
Proof.
  revert k. induction s as [| x s IH]; intros k Hs; simpl; [reflexivity |].
  replace (x =? stop)%N with false
    by (symmetry; apply N.eqb_neq; intros ->; apply Hs; now left).
  apply IH. intros H. apply Hs. now right.
Qed.

Lemma scanTo_inv (stop : N) (s : jsstring) (k m : nat) :
  scanTo stop s k = Some m ->
  exists b c, s = b ++ stop :: c /\ ~ In stop b /\ m = (k + length b)%nat.
Proof.
  revert k. induction s as [| x s IH]; intros k; simpl; [discriminate |].
  destruct (x =? stop)%N eqn:E.
  - apply N.eqb_eq in E. subst x. intros H. injection H as <-.
    exists [], s. split; [reflexivity |]. split; [intros [] | simpl; lia].
  - apply N.eqb_neq in E. intros H.
    destruct (IH _ H) as (b & c & -> & Hb & ->).
    exists (x :: b), c. split; [reflexivity |]. split; [| simpl; lia].
    intros [H' | H']; [now apply E | now apply Hb].
Qed.

Lemma scanTo_failed (stop : N) (s : jsstring) (k : nat) :
  scanTo stop s k = None -> ~ In stop s.
Proof.
  revert k. induction s as [| x s IH]; intros k; simpl; [intros _ [] |].
  destruct (x =? stop)%N eqn:E; [discriminate |].
  apply N.eqb_neq in E. intros H [H' | H']; [now apply E | exact (IH _ H H')].
Qed.

Lemma removeFrom_skip (u rest : jsstring) :
  removeFrom (u ++ rest) (length u) = removeFrom rest 0.
Proof. induction u as [| x u IH]; [reflexivity | exact IH]. Qed.

Lemma removeFrom_In (x : N) (s : jsstring) (k : nat) :
  In x (removeFrom s k) -> In x s.
Proof.
  revert k. induction s as [| c s IH]; intros k; cbn [removeFrom]; [easy |].
  destruct k as [| k].
  - destruct (matchTag (c :: s)).
    + intros H. right. exact (IH _ H).
    + intros [-> | H]; [now left | right; exact (IH _ H)].
  - intros H. right. exact (IH _ H).
Qed.

(** The pattern [<[^>]+>] matches somewhere in [s]. *)
Fixpoint anyAngleTag (s : jsstring) : bool :=
  match matchAngleTag s with
  | Some _ => true
  | None => match s with [] => false | _ :: s' => anyAngleTag s' end
  end.

Lemma matchAngleTag_found (b c : jsstring) :
  b <> [] -> ~ In 62%N b ->
  matchAngleTag (60%N :: b ++ 62%N :: c) = Some (length b + 2)%nat.
Proof.
  intros Hne Hb. unfold matchAngleTag. simpl N.eqb. cbv iota.
  rewrite scanTo_found by exact Hb. simpl Nat.add.
  destruct b; [contradiction | reflexivity].
Qed.

Lemma anyAngleTag_none (s : jsstring) :
  anyAngleTag s = false ->
  forall a b c, s = a ++ 60%N :: b ++ 62%N :: c -> ~ In 62%N b -> b = [].
Proof.
  intros Hs a. revert s Hs. induction a as [| x a IH]; intros s Hs b c -> Hb.
  - simpl app in Hs. destruct b as [| y b]; [reflexivity |]. exfalso.
    cbn [anyAngleTag] in Hs.
    rewrite (matchAngleTag_found (y :: b) c) in Hs by (discriminate || exact Hb).
    discriminate.
  - simpl app in Hs. cbn [anyAngleTag] in Hs.
    destruct (matchAngleTag (x :: a ++ 60%N :: b ++ 62%N :: c)); [discriminate |].
    exact (IH _ Hs b c eq_refl Hb).
Qed.

Lemma matchTag_other (c : N) (s : jsstring) :
  c <> 60%N -> c <> 64%N -> matchTag (c :: s) = None.
Proof.
  intros H60 H64. unfold matchTag, matchAngleTag, matchAtTag.
  apply N.eqb_neq in H60, H64. rewrite H60. simpl. now rewrite H64.
Qed.

Lemma removeFrom_clean (s : jsstring) (k : nat) : anyAngleTag (removeFrom s k) = false.
Proof.
  revert k. induction s as [| c s IH]; intros k; cbn [removeFrom]; [reflexivity |].
  destruct k as [| k]; [| apply IH].
  destruct (matchTag (c :: s)) as [n |] eqn:M; [apply IH |].
  cbn [anyAngleTag].
  replace (matchAngleTag (c :: removeFrom s 0)) with (@None nat); [apply IH |].
  symmetry. unfold matchTag in M.
  destruct (matchAngleTag (c :: s)) eqn:A; [discriminate |]. clear M.
  unfold matchAngleTag in *. destruct (c =? 60)%N; [| reflexivity].
  destruct (scanTo 62 s 0) as [[| m] |] eqn:S; [| discriminate |].
  - destruct (scanTo_inv _ _ _ _ S) as (b & rest & -> & _ & Hlen).
    destruct b; [| discriminate]. simpl app. cbn [removeFrom].
    rewrite matchTag_other by discriminate. simpl. reflexivity.
  - apply scanTo_failed in S.
    rewrite scanTo_none; [reflexivity |].
    intros H. apply S. exact (removeFrom_In _ _ _ H).
Qed.

(** In what [removeHtmlTags] answers the pattern [<[^>]+>] matches
    nowhere: a [<] in it is followed at once by a [>], or by none. *)
Theorem removeHtmlTags_leaves_no_angle_tag (input : jsstring) :
  anyAngleTag (removeHtmlTags input) = false
  /\ forall a b c,
       removeHtmlTags input = a ++ 60%N :: b ++ 62%N :: c -> ~ In 62%N b -> b = [].
Proof.
  split; [apply removeFrom_clean |].
  apply anyAngleTag_none, removeFrom_clean.
Qed.

(** A tag [<...>] in front, with something between the brackets, is
    removed, and the removal goes on after it. *)
Theorem removeHtmlTags_angle_tag (b rest : jsstring) :
  b <> [] -> ~ In 62%N b ->
  removeHtmlTags (60%N :: b ++ 62%N :: rest) = removeHtmlTags rest.
Proof.
  intros Hne Hb. unfold removeHtmlTags. cbn [removeFrom].
  unfold matchTag. rewrite matchAngleTag_found by assumption.
  replace (length b + 2 - 1)%nat with (length (b ++ [62%N]))
    by (rewrite length_app; simpl; lia).
  change (b ++ 62%N :: rest) with (b ++ [62%N] ++ rest).
  rewrite app_assoc. apply removeFrom_skip.
Qed.

(** The statement applies to the heading of the comment in the source. *)
Lemma removeHtmlTags_angle_tag_witness :
  removeHtmlTags (60%N :: lit "h1" ++ 62%N :: lit " hello </h1>")
  = removeHtmlTags (lit " hello </h1>").
Proof.
  apply (removeHtmlTags_angle_tag (lit "h1") (lit " hello </h1>")).
  - discriminate.
  - intros H. vm_compute in H. intuition discriminate.
Defined.

(** A tag [@@@...@@@] in front, with something other than [@] between
    the marks, is removed, and the removal goes on after it. *)
Theorem removeHtmlTags_at_tag (b rest : jsstring) :
  b <> [] -> ~ In 64%N b ->
  removeHtmlTags (atSigns ++ b ++ atSigns ++ rest) = removeHtmlTags rest.
Proof.
  intros Hne Hb. unfold removeHtmlTags.
  change (atSigns ++ b ++ atSigns ++ rest)
    with (64%N :: ([64%N; 64%N] ++ b ++ atSigns ++ rest)).
  cbn [removeFrom].
  assert (M : matchTag (64%N :: ([64%N; 64%N] ++ b ++ atSigns ++ rest))
              = Some (length b + 6)%nat).
  { unfold matchTag, matchAngleTag. simpl N.eqb. cbv iota.
    unfold matchAtTag.
    change (64%N :: ([64%N; 64%N] ++ b ++ atSigns ++ rest))
      with (atSigns ++ (b ++ atSigns ++ rest)).
    rewrite startsWith_app.
    change (skipn 3 (atSigns ++ b ++ atSigns ++ rest)) with (b ++ atSigns ++ rest).
    change (b ++ atSigns ++ rest) with (b ++ 64%N :: ([64%N; 64%N] ++ rest)).
    rewrite scanTo_found by exact Hb. simpl Nat.add.
    destruct b as [| y b]; [contradiction |].
    change ((y :: b) ++ 64%N :: [64%N; 64%N] ++ rest)
      with ((y :: b) ++ atSigns ++ rest).
    cbn [length].
    change (S (length b)) with (length (y :: b)) at 1.
    rewrite skipn_app, Nat.sub_diag, skipn_all.
    change ([] ++ skipn 0 (atSigns ++ rest)) with (atSigns ++ rest).
    rewrite startsWith_app. reflexivity. }
  rewrite M.
  replace (length b + 6 - 1)%nat with (length ([64%N; 64%N] ++ b ++ atSigns))
    by (rewrite !length_app; simpl; lia).
  replace ([64%N; 64%N] ++ b ++ atSigns ++ rest)
    with (([64%N; 64%N] ++ b ++ atSigns) ++ rest)
    by (now rewrite <- !app_assoc).
  apply removeFrom_skip.
Qed.

(** The statement applies to the heading of the comment in the source. *)
Lemma removeHtmlTags_at_tag_witness :
  removeHtmlTags (atSigns ++ lit "h1" ++ atSigns ++ lit " hello")
  = removeHtmlTags (lit " hello").
Proof.
  apply (removeHtmlTags_at_tag (lit "h1") (lit " hello")).
  - discriminate.
  - intros H. vm_compute in H. intuition discriminate.
Defined.

(** A text without [<] and without [@] stays as it is, and the removal
    goes on after it. *)
Theorem removeHtmlTags_plain_text (plain rest : jsstring) :
  forallb (fun c => negb (c =? 60)%N && negb (c =? 64)%N) plain = true ->
  removeHtmlTags (plain ++ rest) = plain ++ removeHtmlTags rest.
Proof.
  unfold removeHtmlTags. induction plain as [| c plain IH]; intros Hp; [reflexivity |].
  simpl in Hp. apply andb_true_iff in Hp as [Hc Hp].
  apply andb_true_iff in Hc as [H60 H64].
  apply negb_true_iff, N.eqb_neq in H60. apply negb_true_iff, N.eqb_neq in H64.
  simpl app. cbn [removeFrom]. rewrite matchTag_other by assumption.
  f_equal. now apply IH.
Qed.

(** The statement applies to the text between the tags of the comment
    in the source. *)
Lemma removeHtmlTags_plain_text_witness :
  removeHtmlTags (lit " hello " ++ lit "</h1>") = lit " hello " ++ removeHtmlTags (lit "</h1>").
Proof.
  exact (removeHtmlTags_plain_text (lit " hello ") (lit "</h1>") eq_refl).
Defined.

(** *** The items of [searchGitHub] *)

Lemma scanTo_firstn (stop : N) (s : jsstring) (n k m : nat) :
  scanTo stop (firstn n s) k = Some m -> scanTo stop s k = Some m.
Proof.
  revert n k. induction s as [| x s IH]; intros n k.
  - now rewrite firstn_nil.
  - destruct n as [| n]; [discriminate |]. simpl.
    destruct (x =? stop)%N; [easy | apply IH].
Qed.

Lemma matchAngleTag_firstn (s : jsstring) (n : nat) :
  matchAngleTag s = None -> matchAngleTag (firstn n s) = None.
Proof.
  destruct s as [| c s]; [now rewrite firstn_nil |].
  destruct n as [| n]; [reflexivity |]. simpl firstn. unfold matchAngleTag.
  destruct (c =? 60)%N; [| reflexivity].
  destruct (scanTo 62 (firstn n s) 0) as [[| m] |] eqn:S; [reflexivity | | reflexivity].
  apply scanTo_firstn in S. now rewrite S.
Qed.

Lemma anyAngleTag_firstn (s : jsstring) (n : nat) :
  anyAngleTag s = false -> anyAngleTag (firstn n s) = false.
Proof.
  revert n. induction s as [| c s IH]; intros n Hs; [now rewrite firstn_nil |].
  cbn [anyAngleTag] in Hs.
  destruct (matchAngleTag (c :: s)) eqn:A; [discriminate |].
  destruct n as [| n]; [reflexivity |].
  pose proof (matchAngleTag_firstn (c :: s) (S n) A) as A'.
  simpl firstn in *. cbn [anyAngleTag]. rewrite A'. now apply IH.
Qed.

Lemma length_slice_bound (s : jsstring) (n : Z) :
  0 <= n -> len (slice s 0 (Some n)) <= n
            /\ slice s 0 (Some n) = firstn (Z.to_nat n) s.
Proof.
  intros Hn. rewrite slice_firstn by exact Hn. split; [| reflexivity].
  unfold len. rewrite length_firstn. lia.
Qed.

(** An item of the output has a title of 180 code units at most, the
    beginning of the item's title, and a body of 300 at most, in which
    no tag [<...>] is left. *)
Theorem outputItem_is_short_and_clean (item : Item) :
  len (out_title (outputItem item)) <= 180
  /\ out_title (outputItem item) = firstn 180 (title item)
  /\ len (out_body (outputItem item)) <= 300
  /\ anyAngleTag (out_body (outputItem item)) = false.
Proof.
  unfold outputItem. cbn [out_title out_body].
  destruct (length_slice_bound (title item) 180 ltac:(lia)) as [H1 H2].
  destruct (length_slice_bound (removeHtmlTags (body item)) 300 ltac:(lia)) as [H3 H4].
  split; [exact H1 |]. split; [exact H2 |]. split; [exact H3 |].
  rewrite H4. apply anyAngleTag_firstn, removeFrom_clean.
Qed.

End GitHubIssues.

(** * The webview's [App]: the list of error messages *)

Module WebviewApp.
Import JS JSFacts.

(** The new state of [errorMessages] on a message of type ['errors']:
    [[...errorMessages, message.errors].slice(-5)]. *)
Definition addError (errorMessages : list jsstring) (errors : jsstring) : list jsstring :=
  slice (errorMessages ++ [errors]) (-5) None.

(** ** Properties *)

Lemma addError_eq (errorMessages : list jsstring) (errors : jsstring) :
  addError errorMessages errors
  = skipn (length errorMessages - 4) errorMessages ++ [errors].
Proof.
  unfold addError, slice, clampIndex, len. rewrite length_app. simpl length.
  change (-5 <? 0) with true. cbv iota.
  set (n := length errorMessages).
  replace (Z.to_nat (Z.max (Z.of_nat (n + 1) + -5) 0)) with (n - 4)%nat by lia.
  rewrite firstn_all2 by (rewrite length_skipn, length_app; simpl; lia).
  rewrite skipn_app. fold n.
  replace (n - 4 - n)%nat with 0%nat by lia. reflexivity.
Qed.

(** The list of error messages shown is the new message after the last
    four of the messages shown before: five messages at most, the
    newest last. *)
Theorem addError_keeps_the_last_five (errorMessages : list jsstring) (errors : jsstring) :
  addError errorMessages errors
  = skipn (length errorMessages - 4) errorMessages ++ [errors]
  /\ len (addError errorMessages errors) <= 5.
Proof.
  split; [apply addError_eq |].
  rewrite addError_eq. unfold len. rewrite length_app, length_skipn. simpl. lia.
Qed.

End WebviewApp.

(** * [MyPromptController.save]: the recipes written to [cody.json] *)

Module MyPromptController.
Import JS JSFacts.

(** [a === b] on the keys of a [Map]. *)
Definition sameKey (a b : jsstring) : bool :=
  if list_eq_dec N.eq_dec a b then true else false.

Section Save.

(** A [CodyPrompt], of which [save] reads [type === 'workspace'] only. *)
Variable CodyPrompt : Type.
Variable isWorkspace : CodyPrompt -> bool.

(** A [Map<string, CodyPrompt>]: the entries in the order of their
    insertion. *)
Definition PromptMap : Type := list (jsstring * CodyPrompt).

(** [map.get(key)]. *)
Fixpoint mapGet (m : PromptMap) (key : jsstring) : option CodyPrompt :=
  match m with
  | [] => None
  | (k, v) :: m' => if sameKey k key then Some v else mapGet m' key
  end.

(** [map.set(key, value)]: an entry of that key keeps its place. *)
Fixpoint mapSet (m : PromptMap) (key : jsstring) (value : CodyPrompt) : PromptMap :=
  match m with
  | [] => [(key, value)]
  | (k, v) :: m' =>
      if sameKey k key then (k, value) :: m' else (k, v) :: mapSet m' key value
  end.

(** [map.delete(key)]. *)
Fixpoint mapDelete (m : PromptMap) (key : jsstring) : PromptMap :=
  match m with
  | [] => []
  | (k, v) :: m' => if sameKey k key then m' else (k, v) :: mapDelete m' key
  end.

(** The loop of [save] over the store: the entries whose type is not
    ['workspace']. *)
Definition filterStore (store : PromptMap) : PromptMap :=
  fold_left
    (fun filtered entry =>
       if isWorkspace (snd entry) then filtered
       else mapSet filtered (fst entry) (snd entry))
    store [].

(** How [save] ends.  [NotSaved]: the home directory is missing, the
    error message is shown and [save] returns; nothing is written and
    [myPromptStore] stays as the first step of [save] left it.
    [Saved]: [recipes] is handed to [saveJSONFile] within the JSON of
    the user's prompts, and [refresh] then replaces [myPromptStore] by
    what the builder reads from the files; neither is in this file. *)
Inductive SaveOutcome :=
  | NotSaved (myPromptStore : PromptMap)
  | Saved (recipes : PromptMap).

(** [!rootDirPath], for [getUserInfo()?.homeDir]: [undefined] or the
    empty string. *)
Definition isMissing (rootDirPath : option jsstring) : bool :=
  match rootDirPath with
  | None => true
  | Some dir => len dir =? 0
  end.

(** [save(id, prompt, deletePrompt)].  The test [!jsonString] of the
    source never holds: [JSON.stringify] of an object is a string
    that is not empty. *)
Definition save (myPromptStore : PromptMap) (id : jsstring) (prompt : CodyPrompt)
           (deletePrompt : bool) (rootDirPath : option jsstring) : SaveOutcome :=
  let store := if deletePrompt then mapDelete myPromptStore id
               else mapSet myPromptStore id prompt in
  let filtered := filterStore store in
  let recipes := mapSet filtered id prompt in
  if isMissing rootDirPath then NotSaved store else Saved recipes.

(** ** Properties *)

Lemma sameKey_true (a b : jsstring) : sameKey a b = true <-> a = b.
Proof. unfold sameKey. destruct (list_eq_dec N.eq_dec a b); split; easy. Qed.

Lemma sameKey_false (a b : jsstring) : sameKey a b = false <-> a <> b.
Proof. unfold sameKey. destruct (list_eq_dec N.eq_dec a b); split; easy. Qed.

Lemma sameKey_refl (a : jsstring) : sameKey a a = true.
Proof. now apply sameKey_true. Qed.

Lemma mapGet_mapSet (m : PromptMap) (k key : jsstring) (v : CodyPrompt) :
  mapGet (mapSet m k v) key = if sameKey k key then Some v else mapGet m key.
Proof.
  induction m as [| [k' v'] m IH]; cbn [mapSet mapGet]; [reflexivity |].
  destruct (sameKey k' k) eqn:E; cbn [mapGet].
  - apply sameKey_true in E. subst k'. now destruct (sameKey k key).
  - destruct (sameKey k' key) eqn:E'; [| exact IH].
    apply sameKey_true in E'. subst k'.
    replace (sameKey k key) with false; [reflexivity |].
    symmetry. apply sameKey_false. apply sameKey_false in E. congruence.
Qed.

Lemma mapGet_mapDelete_other (m : PromptMap) (k key : jsstring) :
  k <> key -> mapGet (mapDelete m k) key = mapGet m key.
Proof.
  intros Hk. induction m as [| [k' v'] m IH]; cbn [mapDelete mapGet]; [reflexivity |].
  destruct (sameKey k' k) eqn:E; cbn [mapGet].
  - apply sameKey_true in E. subst k'.
    now replace (sameKey k key) with false by (symmetry; now apply sameKey_false).
  - now rewrite IH.
Qed.

Lemma mapGet_absent (m : PromptMap) (key : jsstring) :
  ~ In key (map fst m) -> mapGet m key = None.
Proof.
  induction m as [| [k v] m IH]; cbn [mapGet map fst]; [reflexivity |].
  intros H. replace (sameKey k key) with false.
  - apply IH. intros H'. apply H. now right.
  - symmetry. apply sameKey_false. intros ->. apply H. now left.
Qed.

Lemma mapDelete_keys (m : PromptMap) (k key : jsstring) :
  In key (map fst (mapDelete m k)) -> In key (map fst m).
Proof.
  induction m as [| [k' v'] m IH]; cbn [mapDelete map fst]; [easy |].
  destruct (sameKey k' k); cbn [map fst].
  - intros H. now right.
  - intros [-> | H]; [now left | right; now apply IH].
Qed.

Lemma mapDelete_NoDup (m : PromptMap) (k : jsstring) :
  NoDup (map fst m) -> NoDup (map fst (mapDelete m k)).
Proof.
  induction m as [| [k' v'] m IH]; cbn [mapDelete map fst]; [easy |].
  intros H. inversion H as [| ? ? Hn Hd]; subst.
  destruct (sameKey k' k); cbn [map fst]; [exact Hd |].
  constructor; [| now apply IH].
  intros H'. apply Hn. exact (mapDelete_keys _ _ _ H').
Qed.

Lemma mapGet_mapDelete_same (m : PromptMap) (k : jsstring) :
  NoDup (map fst m) -> mapGet (mapDelete m k) k = None.
Proof.
  induction m as [| [k' v'] m IH]; cbn [mapDelete map fst]; [easy |].
  intros H. inversion H as [| ? ? Hn Hd]; subst.
  destruct (sameKey k' k) eqn:E; cbn [mapGet].
  - apply sameKey_true in E. subst k'. now apply mapGet_absent.
  - rewrite E. now apply IH.
Qed.

Lemma mapSet_keys (m : PromptMap) (k key : jsstring) (v : CodyPrompt) :
  In key (map fst (mapSet m k v)) -> key = k \/ In key (map fst m).
Proof.
  induction m as [| [k' v'] m IH]; cbn [mapSet map fst].
  - intros [-> | []]. now left.
  - destruct (sameKey k' k); cbn [map fst].
    + intros H. now right.
    + intros [-> | H]; [right; now left |].
      destruct (IH H) as [-> | H']; [now left | right; now right].
Qed.

Lemma mapSet_NoDup (m : PromptMap) (k : jsstring) (v : CodyPrompt) :
  NoDup (map fst m) -> NoDup (map fst (mapSet m k v)).
Proof.
  induction m as [| [k' v'] m IH]; cbn [mapSet map fst].
  - intros _. constructor; [intros [] | constructor].
  - intros H. inversion H as [| ? ? Hn Hd]; subst.
    destruct (sameKey k' k) eqn:E; cbn [map fst]; [exact H |].
    constructor; [| now apply IH].
    intros H'. destruct (mapSet_keys _ _ _ _ H') as [-> | H''].
    + now rewrite sameKey_refl in E.
    + now apply Hn.
Qed.

Lemma mapGet_filter_loop (store filtered : PromptMap) (key : jsstring) :
  NoDup (map fst store) ->
  mapGet
    (fold_left
       (fun filtered entry =>
          if isWorkspace (snd entry) then filtered
          else mapSet filtered (fst entry) (snd entry))
       store filtered) key
  = match mapGet store key with
    | Some v => if isWorkspace v then mapGet filtered key else Some v
    | None => mapGet filtered key
    end.
Proof.
  revert filtered. induction store as [| [k v] store IH]; intros filtered H;
    cbn [fold_left mapGet]; [reflexivity |].
  cbn [map fst snd] in *. inversion H as [| ? ? Hn Hd]; subst.
  rewrite IH by exact Hd.
  destruct (sameKey k key) eqn:E.
  - apply sameKey_true in E. subst k. rewrite (mapGet_absent store key Hn).
    destruct (isWorkspace v); [reflexivity |].
    now rewrite mapGet_mapSet, sameKey_refl.
  - assert (G : mapGet (if isWorkspace v then filtered else mapSet filtered k v) key
                = mapGet filtered key).
    { destruct (isWorkspace v); [reflexivity |]. now rewrite mapGet_mapSet, E. }
    now rewrite G.
Qed.

Local Abbreviation kept v := (if isWorkspace v then None else Some v).

(** On a store with distinct keys.  When the home directory is known,
    the recipes that [save] hands over to be written hold [prompt]
    under [id], whatever its type and also when the prompt is to be
    deleted, and beside it the entries of the store whose type is not
    ['workspace'].  When the home directory is missing, nothing is
    written, and the store has been changed all the same: [id] is
    deleted from it or set to [prompt], the rest is as it was. *)
Theorem save_writes_the_prompt
        (myPromptStore : PromptMap) (id : jsstring) (prompt : CodyPrompt)
        (deletePrompt : bool) (rootDirPath : option jsstring) :
  NoDup (map fst myPromptStore) ->
  match save myPromptStore id prompt deletePrompt rootDirPath with
  | Saved recipes =>
      isMissing rootDirPath = false
      /\ mapGet recipes id = Some prompt
      /\ (forall key, key <> id ->
            mapGet recipes key
            = match mapGet myPromptStore key with
              | Some v => kept v
              | None => None
              end)
  | NotSaved store =>
      isMissing rootDirPath = true
      /\ mapGet store id = (if deletePrompt then None else Some prompt)
      /\ (forall key, key <> id -> mapGet store key = mapGet myPromptStore key)
  end.
Proof.
  intros Hwf. unfold save. cbv zeta.
  destruct (isMissing rootDirPath).
  - split; [reflexivity |]. split.
    + destruct deletePrompt.
      * now apply mapGet_mapDelete_same.
      * now rewrite mapGet_mapSet, sameKey_refl.
    + intros key Hkey. destruct deletePrompt.
      * apply mapGet_mapDelete_other. congruence.
      * rewrite mapGet_mapSet.
        now replace (sameKey id key) with false
          by (symmetry; apply sameKey_false; congruence).
  - split; [reflexivity |].
    split; [now rewrite mapGet_mapSet, sameKey_refl |].
    intros key Hkey. rewrite mapGet_mapSet.
    replace (sameKey id key) with false
      by (symmetry; apply sameKey_false; congruence).
    unfold filterStore. rewrite mapGet_filter_loop.
    + destruct deletePrompt.
      * rewrite mapGet_mapDelete_other by congruence.
        now destruct (mapGet myPromptStore key).
      * rewrite mapGet_mapSet.
        replace (sameKey id key) with false
          by (symmetry; apply sameKey_false; congruence).
        now destruct (mapGet myPromptStore key).
    + destruct deletePrompt; [now apply mapDelete_NoDup | now apply mapSet_NoDup].
Qed.

End Save.

(** The statement applies to the deletion of the only recipe of a
    store, which the recipes to be written still hold. *)
Lemma save_writes_the_prompt_witness :
  save bool (fun w => w) [(lit "doc", false)] (lit "doc") false true (Some (lit "/home/me"))
  = Saved bool [(lit "doc", false)]
  /\ mapGet bool [(lit "doc", false)] (lit "doc") = Some false.
Proof.
  split; [reflexivity |].
  assert (Hwf : NoDup (map fst [(lit "doc", false)])).
  { constructor; [intros [] | constructor]. }
  exact (proj1 (proj2 (save_writes_the_prompt bool (fun w => w) [(lit "doc", false)]
                         (lit "doc") false true (Some (lit "/home/me")) Hwf))).
Defined.

End MyPromptController.
